(** * update_methods.py: the method-renaming script

    A shallow embedding of [update_methods.py] and the properties its
    specification states about it.

    Python values are modelled as follows.
    - A Python [str] is a list of Unicode code points ([N]).  Paths, file
      text, console lines and exception messages are all of this one type.
    - [re.sub] is modelled on the fragment the script uses: a pattern made
      of ordinary characters and backslash-escaped punctuation, and a
      replacement template without backslash.
    - The interpreter state is a [world]: the file system, the lines printed
      on standard output, and the trace of file-system calls made so far.
    - A statement that can raise is a function [world -> (exn + A) * world];
      [try ... except Exception] is [try_except].
    - What a library call raises is an instance of [Exception].  [print]
      always succeeds, and nothing interrupts the interpreter from outside
      ([KeyboardInterrupt], [SystemExit]). *)

From Stdlib Require Import NArith Ascii String.
From stdpp Require Import base option list gmap.

Local Open Scope N_scope.
Local Open Scope list_scope.

(** ** Python strings *)

Abbreviation str := (list N).

(** The code points of an ASCII literal of the source. *)
Definition lit (s : string) : str :=
  map N_of_ascii (list_ascii_of_string s).

Definition BACKSLASH : N := 92.
Definition CR : N := 13.
Definition LF : N := 10.

(** [s.startswith(p)] *)
Fixpoint startswith (p s : str) : bool :=
  match p, s with
  | [], _ => true
  | _ :: _, [] => false
  | a :: p', b :: s' => (a =? b) && startswith p' s'
  end.

(** [s.endswith(suffix)] *)
Definition endswith (s suffix : str) : bool :=
  startswith (reverse suffix) (reverse s).

(** ** The [re] module, on literal patterns *)

Module Re.

(** The characters with a special meaning in a pattern:
    [. ^ $ * + ? { } [ ] \ | ( )]. *)
Definition special : str := lit ".^$*+?{}[]\|()".

Definition is_special (c : N) : bool := existsb (N.eqb c) special.

(** ASCII letters, digits and the underscore: after a backslash these form
    escapes with a meaning of their own ([\d], [\b], [\1], ...).  Characters
    beyond ASCII are counted with them, so that a backslash quotes ASCII
    punctuation only. *)
Definition is_word (c : N) : bool :=
  ((48 <=? c) && (c <=? 57)) || ((65 <=? c) && (c <=? 90))
  || ((97 <=? c) && (c <=? 122)) || (c =? 95) || (127 <? c).

(** The string a pattern matches, for a pattern that matches exactly one
    string: an ordinary character stands for itself and a backslash before
    an ASCII punctuation character quotes it.  [None] for every other
    pattern. *)
Fixpoint literal (pattern : str) : option str :=
  match pattern with
  | [] => Some []
  | c :: rest =>
      if c =? BACKSLASH then
        match rest with
        | d :: rest' =>
            if is_word d then None else cons d <$> literal rest'
        | [] => None
        end
      else if is_special c then None
      else cons c <$> literal rest
  end.

(** A replacement template without backslash stands for itself. *)
Definition template (repl : str) : option str :=
  if existsb (N.eqb BACKSLASH) repl then None else Some repl.

(** The scan of [re.sub] for a pattern that matches the one string [pat]:
    the text is read from left to right; where [pat] starts at the current
    position the replacement is emitted and the scan resumes after the
    match, otherwise the character is copied.  [skip] counts the characters
    of the last match that are still to be passed over.  An empty match is
    replaced too, before every character and at the end. *)
Fixpoint sub_from (pat rep : str) (skip : nat) (s : str) : str :=
  match s with
  | [] => match pat with [] => rep | _ :: _ => [] end
  | c :: s' =>
      match skip with
      | S k => sub_from pat rep k s'
      | O =>
          if startswith pat s then
            match length pat with
            | O => rep ++ c :: sub_from pat rep 0 s'
            | S k => rep ++ sub_from pat rep k s'
            end
          else c :: sub_from pat rep 0 s'
      end
  end.

Definition sub_literal (pat rep s : str) : str := sub_from pat rep 0 s.

End Re.

(** ** Exceptions, the file system, the interpreter state *)

(** An exception raised by a library call: an instance of a subclass of
    [Exception] ([OSError] and its subclasses, [UnicodeError], [re.error]),
    known by its class name and by the text [str(e)]. *)
Record exn := Raised { exn_class : str; exn_str : str }.

(** The calls the script makes to the file system:
    [os.path.exists(p)], [with open(p, 'r', encoding='utf-8') as f: f.read()]
    and [with open(p, 'w', encoding='utf-8') as f: f.write(content)]. *)
Inductive event :=
| Exists (path : str)
| Read (path : str)
| Write (path content : str).

(** What the script needs of a file system.  Nothing is assumed about
    when and why a call fails: [fs_read] may fail on a path for which
    [fs_exists] answers [true], and a failed [fs_write] may leave any state
    behind (opening for writing truncates the file before anything is
    written). *)
Class FileSystem (fs : Type) := {
  fs_exists : str -> fs -> bool;
  fs_read : str -> fs -> exn + str;
  fs_write : str -> str -> fs -> option exn * fs
}.

Record world (fs : Type) := World {
  w_fs : fs;
  w_stdout : list str;
  w_trace : list event
}.
Arguments World {fs} _ _ _.
Arguments w_fs {fs} _.
Arguments w_stdout {fs} _.
Arguments w_trace {fs} _.

Declare Scope io_scope.
Delimit Scope io_scope with io.

Section Interpreter.
Context {fs : Type} `{FileSystem fs}.

(** A statement: it ends normally with a value or raises, and changes the
    state either way. *)
Definition IO (A : Type) : Type := world fs -> (exn + A) * world fs.

Definition ret {A} (a : A) : IO A := fun w => (inr a, w).

Definition raise {A} (e : exn) : IO A := fun w => (inl e, w).

Definition bind {A B} (m : IO A) (k : A -> IO B) : IO B :=
  fun w =>
    match m w with
    | (inr a, w') => k a w'
    | (inl e, w') => (inl e, w')
    end.

(** [try: body  except Exception as e: handler e] *)
Definition try_except {A} (body : IO A) (handler : exn -> IO A) : IO A :=
  fun w =>
    match body w with
    | (inr a, w') => (inr a, w')
    | (inl e, w') => handler e w'
    end.

(** [for x in xs: body x] *)
Fixpoint for_in {A} (xs : list A) (body : A -> IO unit) : IO unit :=
  match xs with
  | [] => ret tt
  | x :: xs' => bind (body x) (fun _ => for_in xs' body)
  end.

(** [print(line)]: one more line on standard output. *)
Definition print (line : str) : IO unit :=
  fun w => (inr tt, World (w_fs w) (w_stdout w ++ [line]) (w_trace w)).

(** [os.path.exists(path)] *)
Definition os_path_exists (path : str) : IO bool :=
  fun w =>
    (inr (fs_exists path (w_fs w)),
     World (w_fs w) (w_stdout w) (w_trace w ++ [Exists path])).

(** [with open(path, 'r', encoding='utf-8') as f: f.read()] *)
Definition read_text (path : str) : IO str :=
  fun w =>
    (fs_read path (w_fs w),
     World (w_fs w) (w_stdout w) (w_trace w ++ [Read path])).

(** [with open(path, 'w', encoding='utf-8') as f: f.write(content)] *)
Definition write_text (path content : str) : IO unit :=
  fun w =>
    let r := fs_write path content (w_fs w) in
    (match fst r with Some e => inl e | None => inr tt end,
     World (snd r) (w_stdout w) (w_trace w ++ [Write path content])).

(** [re.sub(pattern, repl, string)] on the modelled fragment.  Outside it
    the model raises [re.error], as Python does for a malformed pattern. *)
Definition re_error : exn :=
  Raised (lit "re.error") (lit "pattern outside the modelled fragment").

Definition re_sub (pattern repl string : str) : IO str :=
  match Re.literal pattern, Re.template repl with
  | Some pat, Some rep => ret (Re.sub_literal pat rep string)
  | _, _ => raise re_error
  end.

End Interpreter.

Notation "x <- m ;; k" := (bind m (fun x => k))
  (at level 100, m at next level, k at level 200, right associativity)
  : io_scope.
Notation "m ;; k" := (bind m (fun _ => k))
  (at level 100, k at level 200, right associativity) : io_scope.

(** ** The script *)

Section Script.
Context {fs : Type} `{FileSystem fs}.
Local Open Scope io_scope.

Definition update_file (file_path : str) : IO bool :=
  try_except
    (content <- read_text file_path ;;
     (* Replace Success method calls *)
     content <- re_sub (lit "AevatarAIToolResult\.Success\(")
                       (lit "AevatarAIToolResult.CreateSuccess(") content ;;
     (* Replace Failure method calls *)
     content <- re_sub (lit "AevatarAIToolResult\.Failure\(")
                       (lit "AevatarAIToolResult.CreateFailure(") content ;;
     write_text file_path content ;;
     print (lit "Updated: " ++ file_path) ;;
     ret true)
    (fun e =>
       print (lit "Error updating " ++ file_path ++ lit ": " ++ exn_str e) ;;
       ret false).

Definition files_to_update : list str := [
  lit "/Users/zhaoyiqi/Code/aevatar-agent-framework/src/Aevatar.Agents.AI.MEAI/Examples/SampleAgentWithTools.cs";
  lit "/Users/zhaoyiqi/Code/aevatar-agent-framework/src/Aevatar.Agents.AI.MEAI/MEAIGAgentBase.cs";
  lit "/Users/zhaoyiqi/Code/aevatar-agent-framework/test/Aevatar.Agents.AI.Tests/InterfaceDefinitionTests.cs";
  lit "/Users/zhaoyiqi/Code/aevatar-agent-framework/test/Aevatar.Agents.AI.Tests/MEAIGAgentBaseTests.cs"
].

(** The body of the loop over [files_to_update]. *)
Definition loop_body (file_path : str) : IO unit :=
  found <- os_path_exists file_path ;;
  if found : bool then
    (_ <- update_file file_path ;; ret tt)
  else
    print (lit "File not found: " ++ file_path).

(** The statements of the module, from the loop on. *)
Definition script : IO unit :=
  for_in files_to_update loop_body ;;
  print (lit "Method name updates completed!").

(** The exit status of the interpreter: 0 when the module runs to its end,
    1 when an exception reaches the top level. *)
Definition exit_status (w : world fs) : N :=
  match fst (script w) with
  | inr _ => 0
  | inl _ => 1
  end.

End Script.

(** ** A file system in memory

    An instance of [FileSystem] with the failures a run of the script meets:
    a missing path, a directory, a file without read or write permission,
    a file whose bytes are not UTF-8.  A text file is kept as the code
    points its bytes decode to; reading in text mode turns every line end
    into a line feed and writing turns every line feed into the line
    separator of the platform, as [open] does by default. *)

Module MemFS.

Inductive platform := Posix | Windows.

(** [os.linesep] *)
Definition linesep (pf : platform) : str :=
  match pf with
  | Posix => [LF]
  | Windows => [CR; LF]
  end.

(** Reading with [newline=None]: each of CR LF, CR and LF becomes LF. *)
Fixpoint universal_newlines (raw : str) : str :=
  match raw with
  | [] => []
  | c :: rest =>
      if c =? CR then
        LF :: match rest with
              | d :: rest' =>
                  if d =? LF then universal_newlines rest'
                  else universal_newlines rest
              | [] => []
              end
      else c :: universal_newlines rest
  end.

(** Writing with [newline=None]: each LF becomes [os.linesep]. *)
Definition to_linesep (pf : platform) (s : str) : str :=
  flat_map (fun c => if c =? LF then linesep pf else [c]) s.

(** The code points UTF-8 encodes: all but the surrogates. *)
Definition encodable (c : N) : bool :=
  (c <? 55296) || ((57343 <? c) && (c <=? 1114111)).

Inductive filedata :=
| Text (raw : str)
| Binary (why : str).  (* not UTF-8; [why] is what the decoder reports *)

Inductive node :=
| Dir
| File (readable writable : bool) (data : filedata).

Record t := Make { platform_of : platform; nodes : gmap str node }.

(** [repr(path)], for a path of printable characters without quote or
    backslash. *)
Definition repr (path : str) : str := lit "'" ++ path ++ lit "'".

Definition FileNotFoundError (path : str) : exn :=
  Raised (lit "FileNotFoundError")
         (lit "[Errno 2] No such file or directory: " ++ repr path).

Definition PermissionError (path : str) : exn :=
  Raised (lit "PermissionError")
         (lit "[Errno 13] Permission denied: " ++ repr path).

Definition IsADirectoryError (path : str) : exn :=
  Raised (lit "IsADirectoryError")
         (lit "[Errno 21] Is a directory: " ++ repr path).

Definition UnicodeDecodeError (why : str) : exn :=
  Raised (lit "UnicodeDecodeError") why.

Definition UnicodeEncodeError : exn :=
  Raised (lit "UnicodeEncodeError")
         (lit "'utf-8' codec can't encode character: surrogates not allowed").

Definition exists_ (path : str) (m : t) : bool :=
  match nodes m !! path with
  | Some _ => true
  | None => false
  end.

Definition read (path : str) (m : t) : exn + str :=
  match nodes m !! path with
  | None => inl (FileNotFoundError path)
  | Some Dir => inl (IsADirectoryError path)
  | Some (File false _ _) => inl (PermissionError path)
  | Some (File true _ (Binary why)) => inl (UnicodeDecodeError why)
  | Some (File true _ (Text raw)) => inr (universal_newlines raw)
  end.

(** The node a successful or failed write leaves at the path: opening has
    emptied the file when the encoder refuses a character. *)
Definition written (pf : platform) (content : str) : option exn * filedata :=
  if forallb encodable content then (None, Text (to_linesep pf content))
  else (Some UnicodeEncodeError, Text []).

Definition write (path content : str) (m : t) : option exn * t :=
  match nodes m !! path with
  | Some Dir => (Some (IsADirectoryError path), m)
  | Some (File _ false _) => (Some (PermissionError path), m)
  | Some (File r true _) =>
      let '(e, d) := written (platform_of m) content in
      (e, Make (platform_of m) (<[path := File r true d]> (nodes m)))
  | None =>
      let '(e, d) := written (platform_of m) content in
      (e, Make (platform_of m) (<[path := File true true d]> (nodes m)))
  end.

#[global] Instance file_system : FileSystem t := {
  fs_exists := exists_;
  fs_read := read;
  fs_write := write
}.

(** A world with the given files, nothing printed and no call made yet. *)
Definition boot (pf : platform) (files : list (str * node)) : world t :=
  World (Make pf (list_to_map files)) [] [].

(** What the file at a path holds, if it is a text file. *)
Definition text_at (path : str) (w : world t) : option str :=
  match nodes (w_fs w) !! path with
  | Some (File _ _ (Text raw)) => Some raw
  | _ => None
  end.

End MemFS.

(** ** The two rewrite rules *)

(** The strings the two patterns of [update_file] match, and what replaces
    them. *)
Definition SUCCESS : str := lit "AevatarAIToolResult.Success(".
Definition CREATE_SUCCESS : str := lit "AevatarAIToolResult.CreateSuccess(".
Definition FAILURE : str := lit "AevatarAIToolResult.Failure(".
Definition CREATE_FAILURE : str := lit "AevatarAIToolResult.CreateFailure(".

(** What the first and the second [re.sub] of [update_file] compute. *)
Definition rule1 (content : str) : str :=
  Re.sub_literal SUCCESS CREATE_SUCCESS content.

Definition rule2 (content : str) : str :=
  Re.sub_literal FAILURE CREATE_FAILURE content.

(** The text written for the text read. *)
Definition transform (content : str) : str := rule2 (rule1 content).

(** ** The vocabulary of the specification *)

(** [pat] occurs in [s]. *)
Definition occurs (pat s : str) : Prop := exists u v, s = u ++ pat ++ v.

(** [pat] occurs in [s] at offset [i]. *)
Definition occurs_at (pat s : str) (i : nat) : Prop :=
  exists u v, s = u ++ pat ++ v /\ length u = i.

(** The same, computed. *)
Definition occursb (pat s : str) : bool :=
  existsb (fun i => startswith pat (drop i s)) (seq 0 (S (length s))).

(** Replacing every occurrence of [pat] by [rep], from left to right and
    without overlap, as the specification words a rewrite rule: a text
    without occurrence stays as it is; otherwise the text before the
    leftmost occurrence is kept, the occurrence becomes [rep], and the text
    after it is rewritten in the same way. *)
Inductive replace_all (pat rep : str) : str -> str -> Prop :=
| replace_none s :
    ~ occurs pat s -> replace_all pat rep s s
| replace_leftmost u v out :
    (forall i, (i < length u)%nat -> ~ occurs_at pat (u ++ pat ++ v) i) ->
    replace_all pat rep v out ->
    replace_all pat rep (u ++ pat ++ v) (u ++ rep ++ out).

(** The per-path outcomes of the specification and the line each prints. *)
Inductive Outcome :=
| Updated
| NotFound
| Error (message : str).

Definition notice (path : str) (o : Outcome) : str :=
  match o with
  | Updated => lit "Updated: " ++ path
  | NotFound => lit "File not found: " ++ path
  | Error message => lit "Error updating " ++ path ++ lit ": " ++ message
  end.

(** The paths of the [os.path.exists] calls of a trace, in order. *)
Definition exists_calls (tr : list event) : list str :=
  omap (fun ev => match ev with Exists p => Some p | _ => None end) tr.

(** A step of [update_file] on [path] fails with [e] from file system [m]:
    the read fails, or the read gives a text and the write of its
    transform fails. *)
Inductive step_fails {fs} `{FileSystem fs} (path : str) (m : fs) (e : exn)
  : Prop :=
| read_fails : fs_read path m = inl e -> step_fails path m e
| write_fails t :
    fs_read path m = inr t ->
    fst (fs_write path (transform t) m) = Some e ->
    step_fails path m e.

(** The outcome of one path and the file system it leaves, as the
    specification words the loop: a path that does not exist is
    [NotFound]; otherwise the file is updated, and the outcome is [Updated]
    when the read and the write succeed and [Error] with the message of
    the failure when one of them fails. *)
Definition spec_outcome {fs} `{FileSystem fs} (path : str) (m : fs)
  : Outcome * fs :=
  if fs_exists path m then
    match fs_read path m with
    | inl e => (Error (exn_str e), m)
    | inr t =>
        let r := fs_write path (transform t) m in
        (match fst r with
         | Some e => Error (exn_str e)
         | None => Updated
         end, snd r)
    end
  else (NotFound, m).

(** The outcomes of a list of paths, each from the file system the paths
    before it have left. *)
Fixpoint spec_outcomes {fs} `{FileSystem fs} (paths : list str) (m : fs)
  : list Outcome * fs :=
  match paths with
  | [] => ([], m)
  | p :: ps =>
      let r := spec_outcome p m in
      let rs := spec_outcomes ps (snd r) in
      (fst r :: fst rs, snd rs)
  end.

(** ** Overlaps between a pattern and a piece of text *)

(** [a] and [b] agree as far as both go. *)
Fixpoint compatible (a b : str) : bool :=
  match a, b with
  | x :: a', y :: b' => (x =? y) && compatible a' b'
  | _, _ => true
  end.

(** The offsets inside [w] at which an occurrence of [p] could begin,
    whatever follows [w]. *)
Definition starts_inside (p w : str) : list nat :=
  List.filter (fun i => compatible p (drop i w)) (seq 0 (length w)).

(** The lengths of the proper non-empty prefixes of [p] after which [p]
    could go on into [w]. *)
Definition runs_into (p w : str) : list nat :=
  List.filter (fun j => compatible (drop j p) w) (seq 1 (length p - 1)).

(** ** Sample worlds *)

Module Sample.

Definition path : str := lit "/repo/Tools.cs".

Definition before : str :=
  lit "return ok ? AevatarAIToolResult.Success(x) : AevatarAIToolResult.Failure(e);".

Definition after : str :=
  lit "return ok ? AevatarAIToolResult.CreateSuccess(x) : AevatarAIToolResult.CreateFailure(e);".

(** A text file that may be read and written. *)
Definition tool_file : world MemFS.t :=
  MemFS.boot MemFS.Posix
    [(path, MemFS.File true true (MemFS.Text before))].

(** The file system after the update of [tool_file]. *)
Definition tool_file_updated : MemFS.t :=
  MemFS.Make MemFS.Posix
    (list_to_map [(path, MemFS.File true true (MemFS.Text after))]).

(** The same file without write permission. *)
Definition read_only : world MemFS.t :=
  MemFS.boot MemFS.Posix
    [(path, MemFS.File true false (MemFS.Text before))].

(** A call of the same method on another receiver. *)
Definition other_receiver : world MemFS.t :=
  MemFS.boot MemFS.Posix
    [(path, MemFS.File true true (MemFS.Text (lit "FooBar.Success(x)")))].

(** A directory at the path. *)
Definition directory : world MemFS.t :=
  MemFS.boot MemFS.Posix [(path, MemFS.Dir)].

(** Nothing at the path. *)
Definition nothing : world MemFS.t := MemFS.boot MemFS.Posix [].

End Sample.

(** ** What a run leaves behind *)

(** The calls one turn of the loop may make for a path: the existence
    check alone, the check and the read, or the check, the read and the
    write. *)
Definition turn_calls (path : str) (tr : list event) : Prop :=
  tr = [Exists path]
  \/ tr = [Exists path; Read path]
  \/ exists content, tr = [Exists path; Read path; Write path content].

(** What [update_file] leaves of a node of the file system in memory: a text
    file that may be read and written holds what the write of its
    transformed text leaves; every other node is as it was. *)
Definition updated_node (pf : MemFS.platform) (n : MemFS.node) : MemFS.node :=
  match n with
  | MemFS.File true true (MemFS.Text raw) =>
      MemFS.File true true
        (snd (MemFS.written pf (transform (MemFS.universal_newlines raw))))
  | _ => n
  end.

Module LineEnds.

(** A file with CR LF line ends, on a POSIX platform. *)
Definition crlf_file : world MemFS.t :=
  MemFS.boot MemFS.Posix
    [(Sample.path,
      MemFS.File true true
        (MemFS.Text (lit "AevatarAIToolResult.Success(1);" ++ [CR; LF]
                     ++ lit "AevatarAIToolResult.Failure(2);" ++ [CR; LF])))].

End LineEnds.

(** * Properties *)

(** ** The model on small inputs *)

Example sub_literal_leftmost :
  Re.sub_literal (lit "ab") (lit "X") (lit "abcababa") = lit "XcXXa".
Proof. reflexivity. Qed.

Example sub_literal_no_overlap :
  Re.sub_literal (lit "aa") (lit "b") (lit "aaaaa") = lit "bba".
Proof. reflexivity. Qed.

Example sub_literal_empty_pattern :
  Re.sub_literal [] (lit "-") (lit "abc") = lit "-a-b-c-".
Proof. reflexivity. Qed.

Example sub_literal_case_sensitive :
  rule1 (lit "aevatarAIToolResult.success(1)")
  = lit "aevatarAIToolResult.success(1)".
Proof. reflexivity. Qed.

Example literal_rejects_metacharacters :
  Re.literal (lit "AevatarAIToolResult.Success(") = None.
Proof. reflexivity. Qed.

(** The scenarios of the specification. *)

Example scenario_second_run :
  transform (lit "AevatarAIToolResult.Success(true)")
  = lit "AevatarAIToolResult.CreateSuccess(true)"
  /\ transform (lit "AevatarAIToolResult.CreateSuccess(true)")
     = lit "AevatarAIToolResult.CreateSuccess(true)".
Proof. split; reflexivity. Qed.

Example scenario_receiver :
  transform (lit "AevatarAIToolResult.Success(x)")
  = lit "AevatarAIToolResult.CreateSuccess(x)"
  /\ transform (lit "FooBar.Success(x)") = lit "FooBar.Success(x)".
Proof. split; reflexivity. Qed.

Example scenario_all_missing :
  script Sample.nothing =
    (inr tt,
     World (w_fs Sample.nothing)
       [lit "File not found: /Users/zhaoyiqi/Code/aevatar-agent-framework/src/Aevatar.Agents.AI.MEAI/Examples/SampleAgentWithTools.cs";
        lit "File not found: /Users/zhaoyiqi/Code/aevatar-agent-framework/src/Aevatar.Agents.AI.MEAI/MEAIGAgentBase.cs";
        lit "File not found: /Users/zhaoyiqi/Code/aevatar-agent-framework/test/Aevatar.Agents.AI.Tests/InterfaceDefinitionTests.cs";
        lit "File not found: /Users/zhaoyiqi/Code/aevatar-agent-framework/test/Aevatar.Agents.AI.Tests/MEAIGAgentBaseTests.cs";
        lit "Method name updates completed!"]
       (map Exists files_to_update))
  /\ exit_status Sample.nothing = 0.
Proof. split; vm_compute; reflexivity. Qed.

(** The match is on characters: a longer identifier that ends in
    [AevatarAIToolResult] is rewritten too. *)
Example longer_identifier :
  transform (lit "MyAevatarAIToolResult.Success(x)")
  = lit "MyAevatarAIToolResult.CreateSuccess(x)".
Proof. reflexivity. Qed.

(** Text mode rewrites line ends: on a POSIX platform a file with CR LF
    line ends holds LF line ends after the update. *)
Example line_ends_rewritten :
  MemFS.text_at Sample.path
    (snd (update_file Sample.path
            (MemFS.boot MemFS.Posix
               [(Sample.path,
                 MemFS.File true true
                   (MemFS.Text (lit "a;" ++ [CR; LF] ++ lit "b;")))])))
  = Some (lit "a;" ++ [LF] ++ lit "b;").
Proof. vm_compute. reflexivity. Qed.

(** A write that fails after the file was opened leaves the file empty. *)
Example truncated_on_encode_error :
  MemFS.write Sample.path [55296] (w_fs Sample.tool_file)
  = (Some MemFS.UnicodeEncodeError,
     MemFS.Make MemFS.Posix
       (list_to_map [(Sample.path, MemFS.File true true (MemFS.Text []))])).
Proof. vm_compute. reflexivity. Qed.

(** ** Prefixes *)

Lemma startswith_nil (s : str) : startswith [] s = true.
Proof. by destruct s. Qed.

Lemma startswith_app (p r : str) : startswith p (p ++ r) = true.
Proof.
  induction p as [|a p IH]; simpl; [done|].
  by rewrite N.eqb_refl, IH.
Qed.

Lemma startswith_inv (p s : str) :
  startswith p s = true -> s = p ++ drop (length p) s.
Proof.
  revert s; induction p as [|a p IH]; intros [|b s]; simpl; try done.
  intros [Hab Hps]%andb_prop. apply N.eqb_eq in Hab as ->.
  f_equal. by apply IH.
Qed.

Lemma startswith_iff (p s : str) :
  startswith p s = true <-> exists r, s = p ++ r.
Proof.
  split.
  - intros Hp. eexists. by apply startswith_inv.
  - intros [r ->]. apply startswith_app.
Qed.

Lemma startswith_length (p s : str) :
  startswith p s = true -> (length p <= length s)%nat.
Proof.
  intros Hp%startswith_inv. rewrite Hp, length_app. lia.
Qed.

Lemma startswith_weaken (p s x : str) :
  startswith p s = true -> startswith p (s ++ x) = true.
Proof.
  intros Hp%startswith_inv. rewrite Hp, <- app_assoc. apply startswith_app.
Qed.

Lemma startswith_compatible (q w x : str) :
  startswith q (w ++ x) = true -> compatible q w = true.
Proof.
  revert w; induction q as [|a q IH]; intros [|b w]; simpl; try done.
  intros [-> Hq]%andb_prop. simpl. by apply IH.
Qed.

(** A prefix that begins in [a] and does not end in it: [a] is its start and
    the rest goes on into what follows. *)
Lemma startswith_straddle (p a y : str) :
  startswith p (a ++ y) = true ->
  (length a < length p)%nat ->
  a = take (length a) p /\ startswith (drop (length a) p) y = true.
Proof.
  revert p; induction a as [|c a IH]; intros p Hp Hlen; simpl in *.
  - by rewrite take_0, drop_0.
  - destruct p as [|b p]; simpl in *; [lia|].
    apply andb_prop in Hp as [Hbc Hp]. apply N.eqb_eq in Hbc as ->.
    destruct (IH p Hp) as [Ha Hy]; [lia|]. by rewrite <- Ha.
Qed.

Lemma startswith_inside (p a y : str) :
  startswith p (a ++ y) = true ->
  (length p <= length a)%nat ->
  startswith p a = true.
Proof.
  revert p; induction a as [|c a IH]; intros [|b p] Hp Hlen; simpl in *;
    try done; try lia.
  apply andb_prop in Hp as [-> Hp]. simpl. apply IH; [done | lia].
Qed.

(** ** Occurrences *)

Lemma occurs_at_occurs (pat s : str) (i : nat) :
  occurs_at pat s i -> occurs pat s.
Proof. intros (u & v & -> & _). by exists u, v. Qed.

Lemma occurs_at_0 (pat s : str) :
  occurs_at pat s 0 <-> startswith pat s = true.
Proof.
  rewrite startswith_iff. split.
  - intros (u & v & -> & Hu). apply nil_length_inv in Hu as ->. by exists v.
  - intros [r ->]. by exists [], r.
Qed.

Lemma occurs_at_S (pat : str) (c : N) (s : str) (i : nat) :
  occurs_at pat (c :: s) (S i) <-> occurs_at pat s i.
Proof.
  split.
  - intros (u & v & Hs & Hu). destruct u as [|d u]; [done|].
    simplify_eq/=. by exists u, v.
  - intros (u & v & -> & Hu). exists (c :: u), v. simpl. by rewrite Hu.
Qed.

Lemma occurs_cons (pat : str) (c : N) (s : str) :
  occurs pat (c :: s) <-> startswith pat (c :: s) = true \/ occurs pat s.
Proof.
  split.
  - intros (u & v & Hs). destruct u as [|d u]; simpl in Hs.
    + left. rewrite Hs. apply startswith_app.
    + right. simplify_eq. by exists u, v.
  - intros [Hp | (u & v & ->)].
    + apply startswith_iff in Hp as [r ->]. by exists [], r.
    + by exists (c :: u), v.
Qed.

Lemma occurs_nil (pat : str) : pat <> [] -> ~ occurs pat [].
Proof.
  intros Hne (u & v & Huv). symmetry in Huv.
  apply app_eq_nil in Huv as [_ Hpv]. by apply app_eq_nil in Hpv as [? _].
Qed.

Lemma occursb_spec (pat s : str) : occursb pat s = true <-> occurs pat s.
Proof.
  unfold occursb. rewrite existsb_exists. split.
  - intros (i & _ & Hi). apply startswith_inv in Hi.
    exists (take i s), (drop (length pat) (drop i s)).
    by rewrite <- Hi, take_drop.
  - intros (u & v & ->). exists (length u). split.
    + apply in_seq. rewrite length_app. lia.
    + rewrite drop_app_length. apply startswith_app.
Qed.

Lemma not_occurs (pat s : str) : occursb pat s = false -> ~ occurs pat s.
Proof. intros Hb Ho%occursb_spec. congruence. Qed.

(** ** The scan of [re.sub] *)

Lemma filter_nil_false {A} (f : A -> bool) (l : list A) (x : A) :
  List.filter f l = [] -> In x l -> f x = false.
Proof.
  intros Hnil Hin. destruct (f x) eqn:Hfx; [|done].
  assert (Hx : In x (List.filter f l)) by (apply filter_In; done).
  by rewrite Hnil in Hx.
Qed.

Lemma starts_inside_nil (p w : str) (i : nat) :
  starts_inside p w = [] -> (i < length w)%nat ->
  compatible p (drop i w) = false.
Proof.
  intros Hnil Hi.
  apply (filter_nil_false (fun i => compatible p (drop i w)) _ i Hnil).
  apply in_seq. lia.
Qed.

Lemma runs_into_nil (p w : str) (j : nat) :
  runs_into p w = [] -> (1 <= j < length p)%nat ->
  compatible (drop j p) w = false.
Proof.
  intros Hnil Hj.
  apply (filter_nil_false (fun j => compatible (drop j p) w) _ j Hnil).
  apply in_seq. lia.
Qed.

Lemma sub_from_skip (pat rep w rest : str) :
  Re.sub_from pat rep (length w) (w ++ rest) = Re.sub_from pat rep 0 rest.
Proof. induction w as [|a w IH]; simpl; [|rewrite IH]; done. Qed.

Section Substitution.

Variables pat rep : str.
Hypothesis pat_nonempty : pat <> [].

Local Abbreviation sub := (Re.sub_literal pat rep).

(** The three equations of the scan. *)

Lemma sub_nil : sub [] = [].
Proof. unfold Re.sub_literal. simpl. by destruct pat. Qed.

Lemma sub_hit (rest : str) : sub (pat ++ rest) = rep ++ sub rest.
Proof.
  unfold Re.sub_literal.
  pose proof (startswith_app pat rest) as Hp.
  destruct pat as [|c p]; [done|].
  change ((c :: p) ++ rest) with (c :: (p ++ rest)) in *.
  cbn [Re.sub_from]. rewrite Hp. cbn [length].
  by rewrite sub_from_skip.
Qed.

Lemma sub_miss (c : N) (s : str) :
  startswith pat (c :: s) = false -> sub (c :: s) = c :: sub s.
Proof. unfold Re.sub_literal. cbn [Re.sub_from]. by intros ->. Qed.

(** Induction along the scan. *)
Lemma sub_ind (P : str -> Prop) :
  P [] ->
  (forall rest, P rest -> P (pat ++ rest)) ->
  (forall c s, startswith pat (c :: s) = false -> P s -> P (c :: s)) ->
  forall s, P s.
Proof.
  intros Hnil Hhit Hmiss s.
  induction s as [s IH] using (induction_ltof1 _ (@length N)).
  unfold ltof in IH.
  destruct s as [|c s]; [done|].
  destruct (startswith pat (c :: s)) eqn:Hp.
  - apply startswith_inv in Hp. rewrite Hp. apply Hhit, IH.
    rewrite Hp at 2. rewrite length_app.
    destruct pat; [done | simpl; lia].
  - apply Hmiss; [done|]. apply IH. simpl. lia.
Qed.

(** A text without occurrence is copied. *)
Lemma sub_id (s : str) : ~ occurs pat s -> sub s = s.
Proof.
  induction s as [|c s IH]; intros Hno; [apply sub_nil|].
  rewrite occurs_cons in Hno.
  rewrite sub_miss; [f_equal; tauto|].
  destruct (startswith pat (c :: s)); tauto.
Qed.

(** The scan copies a piece of text in which no match can begin. *)
Lemma sub_skip (w x : str) :
  starts_inside pat w = [] -> sub (w ++ x) = w ++ sub x.
Proof.
  intros Hin.
  assert (Hall : forall i, (i < length w)%nat ->
                           compatible pat (drop i w) = false)
    by (intros; by apply starts_inside_nil).
  clear Hin. induction w as [|a w IH]; [done|].
  simpl. rewrite sub_miss.
  - f_equal. apply IH. intros i Hi. apply (Hall (S i)). simpl. lia.
  - destruct (startswith pat (a :: w ++ x)) eqn:Hp; [|done].
    apply (startswith_compatible pat (a :: w) x) in Hp.
    specialize (Hall 0%nat). simpl in Hall. rewrite Hall in Hp; [done|lia].
Qed.

(** What the scan leaves of a pattern [p] that has begun before: if the
    rest of [p] starts the output it started the input. *)
Lemma sub_keeps_tail (p : str) :
  runs_into p rep = [] ->
  forall s j, (1 <= j)%nat ->
    startswith (drop j p) (sub s) = true -> startswith (drop j p) s = true.
Proof.
  intros Hrun s. induction s as [|rest IH|c s Hc IH] using sub_ind;
    intros j Hj Hp.
  - by rewrite sub_nil in Hp.
  - rewrite sub_hit in Hp. apply startswith_compatible in Hp.
    destruct (decide (j < length p)%nat) as [Hlt|Hge].
    + rewrite runs_into_nil in Hp; [done | done | lia].
    + rewrite drop_ge by lia. apply startswith_nil.
  - rewrite sub_miss in Hp by done.
    destruct (drop j p) as [|d q] eqn:Hd; [done|].
    assert (Hq : q = drop (S j) p).
    { change q with (drop 1 (d :: q)). rewrite <- Hd, drop_drop.
      f_equal. lia. }
    simpl in *. apply andb_prop in Hp as [-> Hp]. simpl.
    rewrite Hq in *. apply IH; [lia | done].
Qed.

Lemma sub_keeps_head (p : str) (c : N) (s : str) :
  runs_into p rep = [] ->
  startswith p (c :: sub s) = true -> startswith p (c :: s) = true.
Proof.
  intros Hrun Hp. destruct p as [|d q]; [done|].
  simpl in *. apply andb_prop in Hp as [-> Hp]. simpl.
  apply (sub_keeps_tail (d :: q) Hrun s 1%nat); [lia | done].
Qed.

(** An occurrence of [p] in the output comes from one in the input. *)
Lemma occurs_skip (p w x : str) :
  starts_inside p w = [] -> occurs p (w ++ x) -> occurs p x.
Proof.
  intros Hin.
  assert (Hall : forall i, (i < length w)%nat ->
                           compatible p (drop i w) = false)
    by (intros; by apply starts_inside_nil).
  clear Hin. induction w as [|a w IH]; [done|].
  simpl. rewrite occurs_cons. intros [Hp | Ho].
  - apply (startswith_compatible p (a :: w) x) in Hp.
    specialize (Hall 0%nat). simpl in Hall. rewrite Hall in Hp; [done|lia].
  - apply IH; [|done]. intros i Hi. apply (Hall (S i)). simpl. lia.
Qed.

Lemma sub_no_new (p : str) (s : str) :
  starts_inside p rep = [] -> runs_into p rep = [] ->
  occurs p (sub s) -> occurs p s.
Proof.
  intros Hin Hrun. induction s as [|rest IH|c s Hc IH] using sub_ind.
  - by rewrite sub_nil.
  - rewrite sub_hit. intros Ho%occurs_skip; [|done].
    destruct (IH Ho) as (u & v & ->). exists (pat ++ u), v.
    by rewrite <- app_assoc.
  - rewrite sub_miss by done. rewrite !occurs_cons.
    intros [Hp | Ho]; [left | right; tauto].
    by apply sub_keeps_head.
Qed.

(** No occurrence of the pattern is left. *)
Lemma sub_no_occurrence (s : str) :
  starts_inside pat rep = [] -> runs_into pat rep = [] ->
  ~ occurs pat (sub s).
Proof.
  intros Hin Hrun. induction s as [|rest IH|c s Hc IH] using sub_ind.
  - rewrite sub_nil. by apply occurs_nil.
  - rewrite sub_hit. by intros Ho%occurs_skip.
  - rewrite sub_miss by done. rewrite occurs_cons.
    intros [Hp | Ho]; [|done].
    apply sub_keeps_head in Hp; [congruence | done].
Qed.

Lemma sub_idempotent (s : str) :
  starts_inside pat rep = [] -> runs_into pat rep = [] ->
  sub (sub s) = sub s.
Proof. intros Hin Hrun. by apply sub_id, sub_no_occurrence. Qed.

(** The scan keeps what holds of every character of the text and of the
    replacement. *)
Lemma sub_Forall (P : N -> Prop) (s : str) :
  Forall P rep -> Forall P s -> Forall P (sub s).
Proof.
  intros Hrep. induction s as [|rest IH|c s Hc IH] using sub_ind.
  - by rewrite sub_nil.
  - rewrite sub_hit. intros [_ Hrest]%Forall_app. apply Forall_app. auto.
  - rewrite sub_miss by done. intros [Hc' Hs]%Forall_cons.
    apply Forall_cons. auto.
Qed.

(** The scan of a text in two pieces, when no match lies across the cut. *)
Lemma sub_split (u x : str) :
  (forall i, (i < length u)%nat ->
     startswith pat (drop i u ++ x) = true ->
     startswith pat (drop i u) = true) ->
  sub (u ++ x) = sub u ++ sub x.
Proof.
  induction u as [|rest IH|c s Hc IH] using sub_ind; intros Hcut.
  - by rewrite sub_nil.
  - rewrite <- app_assoc, !sub_hit, <- app_assoc. f_equal. apply IH.
    intros i Hi. specialize (Hcut (length pat + i)%nat).
    rewrite <- drop_drop, drop_app_length in Hcut.
    apply Hcut. rewrite length_app. lia.
  - simpl. rewrite !sub_miss; [| done |].
    + simpl. f_equal. apply IH. intros i Hi. apply (Hcut (S i)). simpl. lia.
    + destruct (startswith pat (c :: s ++ x)) eqn:Hp; [|done].
      apply (Hcut 0%nat) in Hp; [simpl in Hp; congruence | simpl; lia].
Qed.

End Substitution.

(** ** The scan against the specification's rewriting *)

Section Refinement.

Variables pat rep : str.
Hypothesis pat_nonempty : pat <> [].

Local Abbreviation sub := (Re.sub_literal pat rep).

Lemma replace_all_cons (c : N) (s o : str) :
  startswith pat (c :: s) = false ->
  replace_all pat rep s o -> replace_all pat rep (c :: s) (c :: o).
Proof.
  intros Hc Hso. inversion Hso as [s' Hno | u v out Hleft Hv]; subst.
  - apply replace_none. rewrite occurs_cons. intros [Hp | Ho]; [congruence | done].
  - apply (replace_leftmost pat rep (c :: u) v out); [|done].
    intros [|i] Hi; simpl.
    + rewrite occurs_at_0. simpl in Hc. congruence.
    + rewrite occurs_at_S. apply Hleft. simpl in Hi. lia.
Qed.

(** The scan rewrites as the specification says... *)
Lemma sub_replace_all (s : str) : replace_all pat rep s (sub s).
Proof.
  induction s as [|rest IH|c s Hc IH] using (sub_ind pat pat_nonempty).
  - rewrite sub_nil by done. apply replace_none. by apply occurs_nil.
  - rewrite sub_hit by done.
    apply (replace_leftmost pat rep [] rest); [|done].
    intros i Hi. simpl in Hi. lia.
  - rewrite sub_miss by done. by apply replace_all_cons.
Qed.

Lemma sub_leftmost (u x : str) :
  (forall i, (i < length u)%nat -> ~ occurs_at pat (u ++ x) i) ->
  sub (u ++ x) = u ++ sub x.
Proof.
  induction u as [|a u IH]; intros Hleft; [done|].
  simpl. rewrite sub_miss.
  - f_equal. apply IH. intros i Hi. rewrite <- (occurs_at_S pat a).
    apply Hleft. simpl. lia.
  - destruct (startswith pat (a :: u ++ x)) eqn:Hp; [|done].
    apply occurs_at_0 in Hp. apply Hleft in Hp; [done | simpl; lia].
Qed.

(** ... and the specification leaves no other result. *)
Lemma replace_all_sub (s o : str) : replace_all pat rep s o -> o = sub s.
Proof.
  induction 1 as [s Hno | u v out Hleft Hv IH].
  - symmetry. by apply sub_id.
  - rewrite sub_leftmost, sub_hit, IH by done. done.
Qed.

End Refinement.

(** ** Two rules whose patterns and replacements keep apart *)

Section TwoRules.

Variables pat1 rep1 pat2 rep2 : str.
Hypothesis pat1_nonempty : pat1 <> [].
Hypothesis pat2_nonempty : pat2 <> [].
Hypothesis pat2_not_in_pat1 : starts_inside pat2 pat1 = [].
Hypothesis pat1_not_in_pat2 : starts_inside pat1 pat2 = [].
Hypothesis pat2_not_in_rep1 : starts_inside pat2 rep1 = [].
Hypothesis pat1_not_in_rep2 : starts_inside pat1 rep2 = [].
Hypothesis pat2_not_into_rep1 : runs_into pat2 rep1 = [].
Hypothesis pat1_not_into_rep2 : runs_into pat1 rep2 = [].

Local Abbreviation sub1 := (Re.sub_literal pat1 rep1).
Local Abbreviation sub2 := (Re.sub_literal pat2 rep2).

Lemma sub_commute (s : str) : sub2 (sub1 s) = sub1 (sub2 s).
Proof.
  induction s as [s IH] using (induction_ltof1 _ (@length N)).
  unfold ltof in IH.
  destruct s as [|c s]; [by rewrite !sub_nil|].
  destruct (startswith pat1 (c :: s)) eqn:H1;
    [|destruct (startswith pat2 (c :: s)) eqn:H2].
  - apply startswith_inv in H1.
    assert (Hlen : (length (drop (length pat1) (c :: s)) < length (c :: s))%nat).
    { rewrite H1 at 2. rewrite length_app. destruct pat1; [done | simpl; lia]. }
    rewrite H1.
    rewrite (sub_skip pat2 rep2 pat1) by done.
    rewrite !sub_hit by done.
    rewrite (sub_skip pat2 rep2 rep1) by done.
    f_equal. by apply IH.
  - apply startswith_inv in H2.
    assert (Hlen : (length (drop (length pat2) (c :: s)) < length (c :: s))%nat).
    { rewrite H2 at 2. rewrite length_app. destruct pat2; [done | simpl; lia]. }
    rewrite H2.
    rewrite (sub_skip pat1 rep1 pat2) by done.
    rewrite !sub_hit by done.
    rewrite (sub_skip pat1 rep1 rep2) by done.
    f_equal. by apply IH.
  - rewrite (sub_miss pat1 rep1 c s H1), (sub_miss pat2 rep2 c s H2).
    rewrite !sub_miss.
    + f_equal. apply IH. simpl. lia.
    + destruct (startswith pat1 (c :: sub2 s)) eqn:Hp; [|done].
      apply sub_keeps_head in Hp; [congruence | done | done].
    + destruct (startswith pat2 (c :: sub1 s)) eqn:Hp; [|done].
      apply sub_keeps_head in Hp; [congruence | done | done].
Qed.

End TwoRules.

(** ** The patterns of the script *)

Lemma SUCCESS_nonempty : SUCCESS <> [].
Proof. done. Qed.

Lemma FAILURE_nonempty : FAILURE <> [].
Proof. done. Qed.

(** No match of either pattern can begin inside a replacement or inside the
    other pattern, and none that has begun can go on into a replacement. *)
Lemma patterns_keep_apart :
  starts_inside SUCCESS CREATE_SUCCESS = [] /\
  starts_inside SUCCESS CREATE_FAILURE = [] /\
  starts_inside FAILURE CREATE_SUCCESS = [] /\
  starts_inside FAILURE CREATE_FAILURE = [] /\
  starts_inside SUCCESS FAILURE = [] /\
  starts_inside FAILURE SUCCESS = [] /\
  runs_into SUCCESS CREATE_SUCCESS = [] /\
  runs_into SUCCESS CREATE_FAILURE = [] /\
  runs_into FAILURE CREATE_SUCCESS = [] /\
  runs_into FAILURE CREATE_FAILURE = [].
Proof. vm_compute. repeat split. Qed.

Lemma rule1_idempotent (s : str) : rule1 (rule1 s) = rule1 s.
Proof.
  apply sub_idempotent; [done | apply patterns_keep_apart..].
Qed.

Lemma rule2_idempotent (s : str) : rule2 (rule2 s) = rule2 s.
Proof.
  apply sub_idempotent; [done | apply patterns_keep_apart..].
Qed.

Lemma transform_no_SUCCESS (s : str) : ~ occurs SUCCESS (transform s).
Proof.
  unfold transform. intros Ho.
  apply (sub_no_new FAILURE CREATE_FAILURE FAILURE_nonempty SUCCESS) in Ho;
    [| apply patterns_keep_apart..].
  revert Ho. apply sub_no_occurrence; [done | apply patterns_keep_apart..].
Qed.

Lemma transform_no_FAILURE (s : str) : ~ occurs FAILURE (transform s).
Proof.
  apply sub_no_occurrence; [done | apply patterns_keep_apart..].
Qed.

(** ** What [update_file] and the loop do *)

Lemma literal_SUCCESS :
  Re.literal (lit "AevatarAIToolResult\.Success\(") = Some SUCCESS.
Proof. vm_compute. reflexivity. Qed.

Lemma literal_FAILURE :
  Re.literal (lit "AevatarAIToolResult\.Failure\(") = Some FAILURE.
Proof. vm_compute. reflexivity. Qed.

Lemma template_CREATE_SUCCESS :
  Re.template (lit "AevatarAIToolResult.CreateSuccess(") = Some CREATE_SUCCESS.
Proof. vm_compute. reflexivity. Qed.

Lemma template_CREATE_FAILURE :
  Re.template (lit "AevatarAIToolResult.CreateFailure(") = Some CREATE_FAILURE.
Proof. vm_compute. reflexivity. Qed.

Section Behaviour.
Context {fs : Type} `{FileSystem fs}.

Lemma re_sub_rule1 (content : str) :
  re_sub (lit "AevatarAIToolResult\.Success\(")
         (lit "AevatarAIToolResult.CreateSuccess(") content
  = ret (fs:=fs) (rule1 content).
Proof.
  unfold re_sub. by rewrite literal_SUCCESS, template_CREATE_SUCCESS.
Qed.

Lemma re_sub_rule2 (content : str) :
  re_sub (lit "AevatarAIToolResult\.Failure\(")
         (lit "AevatarAIToolResult.CreateFailure(") content
  = ret (fs:=fs) (rule2 content).
Proof.
  unfold re_sub. by rewrite literal_FAILURE, template_CREATE_FAILURE.
Qed.

(** The three ways through [update_file]. *)
Lemma update_file_unfold (path : str) (w : world fs) :
  update_file path w =
  match fs_read path (w_fs w) with
  | inl e =>
      (inr false,
       World (w_fs w)
             (w_stdout w ++ [notice path (Error (exn_str e))])
             (w_trace w ++ [Read path]))
  | inr t =>
      let r := fs_write path (transform t) (w_fs w) in
      match fst r with
      | Some e =>
          (inr false,
           World (snd r)
                 (w_stdout w ++ [notice path (Error (exn_str e))])
                 (w_trace w ++ [Read path; Write path (transform t)]))
      | None =>
          (inr true,
           World (snd r)
                 (w_stdout w ++ [notice path Updated])
                 (w_trace w ++ [Read path; Write path (transform t)]))
      end
  end.
Proof.
  unfold update_file, try_except, bind, read_text.
  cbn [w_fs w_stdout w_trace fst snd].
  destruct (fs_read path (w_fs w)) as [e | t]; [done|].
  rewrite re_sub_rule1. unfold ret at 1. cbv beta iota.
  rewrite re_sub_rule2. unfold ret at 1. cbv beta iota.
  unfold write_text, print, ret, transform.
  cbn [w_fs w_stdout w_trace fst snd notice].
  rewrite <- app_assoc.
  by destruct (fst (fs_write path (rule2 (rule1 t)) (w_fs w))).
Qed.

(** A turn of the loop ends normally with the outcome of its path: one
    existence check, one line. *)
Lemma loop_body_outcome (path : str) (w : world fs) :
  exists tr : list event,
    loop_body path w =
      (inr tt,
       World (snd (spec_outcome path (w_fs w)))
             (w_stdout w ++ [notice path (fst (spec_outcome path (w_fs w)))])
             (w_trace w ++ Exists path :: tr)) /\
    exists_calls tr = [].
Proof.
  unfold loop_body, bind, os_path_exists, spec_outcome.
  cbn [w_fs w_stdout w_trace].
  destruct (fs_exists path (w_fs w)) eqn:Hex.
  - rewrite update_file_unfold. cbn [w_fs w_stdout w_trace].
    destruct (fs_read path (w_fs w)) as [e | t];
      [|cbv zeta; destruct (fst (fs_write path (transform t) (w_fs w)))];
      unfold ret; rewrite <- app_assoc; cbn [fst snd];
      eexists; (split; [reflexivity | done]).
  - unfold print. cbn [w_fs w_stdout w_trace fst snd]. by exists [].
Qed.

Lemma spec_outcomes_length (paths : list str) (m : fs) :
  length (fst (spec_outcomes paths m)) = length paths.
Proof.
  revert m. induction paths as [|p paths IH]; intros m; [done|].
  simpl. by rewrite IH.
Qed.

Lemma for_in_loop_body (paths : list str) (w : world fs) :
  exists tr : list event,
    for_in paths loop_body w =
      (inr tt,
       World (snd (spec_outcomes paths (w_fs w)))
             (w_stdout w
              ++ zip_with notice paths (fst (spec_outcomes paths (w_fs w))))
             (w_trace w ++ tr)) /\
    exists_calls tr = paths.
Proof.
  revert w. induction paths as [|p paths IH]; intros w.
  - exists []. simpl. rewrite !app_nil_r. by destruct w.
  - destruct (loop_body_outcome p w) as (tr1 & Hrun1 & Hex1).
    destruct (IH (World (snd (spec_outcome p (w_fs w)))
                    (w_stdout w ++ [notice p (fst (spec_outcome p (w_fs w)))])
                    (w_trace w ++ Exists p :: tr1)))
      as (tr2 & Hrun2 & Hex2).
    exists (Exists p :: tr1 ++ tr2).
    cbn [for_in]. unfold bind at 1. rewrite Hrun1, Hrun2.
    cbn [w_fs w_stdout w_trace spec_outcomes fst snd zip_with].
    split.
    + by rewrite <- !app_assoc.
    + unfold exists_calls in *. cbn [omap list_omap].
      by rewrite omap_app, Hex1, Hex2.
Qed.

End Behaviour.

(** ** Reading back what was written *)

Lemma universal_newlines_cons_other (c : N) (s : str) :
  c <> CR ->
  MemFS.universal_newlines (c :: s) = c :: MemFS.universal_newlines s.
Proof.
  intros Hc. cbn [MemFS.universal_newlines].
  by destruct (N.eqb_spec c CR).
Qed.

Lemma universal_newlines_Forall (P : N -> Prop) (raw : str) :
  P LF -> Forall P raw -> Forall P (MemFS.universal_newlines raw).
Proof.
  intros HLF.
  induction raw as [raw IH] using (induction_ltof1 _ (@length N)).
  unfold ltof in IH. intros Hraw.
  destruct raw as [|c rest]; [done|].
  apply Forall_cons in Hraw as [Hc Hrest].
  cbn [MemFS.universal_newlines]. destruct (c =? CR).
  - apply Forall_cons. split; [done|].
    destruct rest as [|d rest']; [done|].
    apply Forall_cons in Hrest as [Hd Hrest'].
    destruct (d =? LF); apply IH; simpl; try lia; try done.
    by apply Forall_cons.
  - apply Forall_cons. split; [done|]. apply IH; [simpl; lia | done].
Qed.

(** No carriage return is left in a text read. *)
Lemma universal_newlines_no_CR (raw : str) :
  Forall (fun c => c <> CR) (MemFS.universal_newlines raw).
Proof.
  induction raw as [raw IH] using (induction_ltof1 _ (@length N)).
  unfold ltof in IH.
  destruct raw as [|c rest]; [done|].
  cbn [MemFS.universal_newlines]. destruct (N.eqb_spec c CR) as [->|Hc].
  - apply Forall_cons. split; [done|].
    destruct rest as [|d rest']; [done|].
    destruct (d =? LF); apply IH; simpl; lia.
  - apply Forall_cons. split; [done|]. apply IH. simpl. lia.
Qed.

(** A text without carriage return is read back as it was written, on
    either platform. *)
Lemma read_back (pf : MemFS.platform) (t : str) :
  Forall (fun c => c <> CR) t ->
  MemFS.universal_newlines (MemFS.to_linesep pf t) = t.
Proof.
  induction 1 as [|c t Hc Ht IH]; [done|].
  change (MemFS.to_linesep pf (c :: t))
    with ((if c =? LF then MemFS.linesep pf else [c]) ++ MemFS.to_linesep pf t).
  destruct (N.eqb_spec c LF) as [->|Hne].
  - destruct pf; cbn [MemFS.linesep app].
    + rewrite universal_newlines_cons_other by done. by rewrite IH.
    + change (MemFS.universal_newlines (CR :: LF :: MemFS.to_linesep MemFS.Windows t))
        with (LF :: MemFS.universal_newlines (MemFS.to_linesep MemFS.Windows t)).
      by rewrite IH.
  - cbn [app]. rewrite universal_newlines_cons_other by done. by rewrite IH.
Qed.

Lemma forallb_Forall_encodable (s : str) :
  forallb MemFS.encodable s = true <-> Forall (fun c => MemFS.encodable c = true) s.
Proof. rewrite forallb_forall, Forall_forall. by setoid_rewrite list_elem_of_In. Qed.

Lemma transform_Forall (P : N -> Prop) (s : str) :
  Forall P CREATE_SUCCESS -> Forall P CREATE_FAILURE ->
  Forall P s -> Forall P (transform s).
Proof.
  intros H1 H2 Hs. unfold transform, rule1, rule2.
  apply sub_Forall; [done | done |]. by apply sub_Forall.
Qed.

Lemma replacements_encodable :
  forallb MemFS.encodable CREATE_SUCCESS = true /\
  forallb MemFS.encodable CREATE_FAILURE = true.
Proof. by vm_compute. Qed.

Lemma no_CR_forallb (s : str) :
  forallb (fun c => negb (c =? CR)) s = true -> Forall (fun c => c <> CR) s.
Proof.
  rewrite forallb_forall, Forall_forall.
  intros Hall c Hc%list_elem_of_In. apply Hall in Hc.
  by destruct (N.eqb_spec c CR).
Qed.

Lemma replacements_no_CR :
  Forall (fun c => c <> CR) CREATE_SUCCESS /\
  Forall (fun c => c <> CR) CREATE_FAILURE.
Proof. split; by apply no_CR_forallb. Qed.

(** What a text file that may be read and written holds after a write. *)
Lemma write_text_file (path content : str) (m : MemFS.t) (r : bool) (d : MemFS.filedata) :
  MemFS.nodes m !! path = Some (MemFS.File r true d) ->
  forallb MemFS.encodable content = true ->
  MemFS.write path content m =
  (None,
   MemFS.Make (MemFS.platform_of m)
     (<[path := MemFS.File r true
                  (MemFS.Text (MemFS.to_linesep (MemFS.platform_of m) content))]>
        (MemFS.nodes m))).
Proof.
  intros Hnode Henc. unfold MemFS.write, MemFS.written. by rewrite Hnode, Henc.
Qed.

Lemma to_linesep_encodable (pf : MemFS.platform) (s : str) :
  forallb MemFS.encodable s = true ->
  forallb MemFS.encodable (MemFS.to_linesep pf s) = true.
Proof.
  induction s as [|c s IH]; [done|].
  change (MemFS.to_linesep pf (c :: s))
    with ((if c =? LF then MemFS.linesep pf else [c]) ++ MemFS.to_linesep pf s).
  cbn [forallb]. intros [Hc Hs]%andb_prop.
  rewrite forallb_app, IH by done.
  destruct (c =? LF); [by destruct pf | cbn [forallb]; by rewrite Hc].
Qed.

Lemma transform_twice (s : str) : transform (transform s) = transform s.
Proof.
  assert (H1 : rule1 (transform s) = transform s)
    by (apply sub_id; [done | apply transform_no_SUCCESS]).
  assert (H2 : rule2 (transform s) = transform s)
    by (apply sub_id; [done | apply transform_no_FAILURE]).
  unfold transform at 1. by rewrite H1, H2.
Qed.

Lemma transform_encodable (s : str) :
  forallb MemFS.encodable s = true ->
  forallb MemFS.encodable (transform s) = true.
Proof.
  intros Hs. apply forallb_Forall_encodable, transform_Forall;
    try (apply forallb_Forall_encodable, replacements_encodable).
  by apply forallb_Forall_encodable.
Qed.

Lemma universal_newlines_encodable (raw : str) :
  forallb MemFS.encodable raw = true ->
  forallb MemFS.encodable (MemFS.universal_newlines raw) = true.
Proof.
  intros Hraw. apply forallb_Forall_encodable.
  apply universal_newlines_Forall; [done|].
  by apply forallb_Forall_encodable.
Qed.

Lemma transform_no_CR (raw : str) :
  Forall (fun c => c <> CR) (transform (MemFS.universal_newlines raw)).
Proof.
  apply transform_Forall; try apply replacements_no_CR.
  apply universal_newlines_no_CR.
Qed.

(** The update of a text file that may be read and written. *)
Lemma update_text_file (w : world MemFS.t) (path raw : str) :
  MemFS.nodes (w_fs w) !! path
    = Some (MemFS.File true true (MemFS.Text raw)) ->
  forallb MemFS.encodable raw = true ->
  update_file path w =
    (inr true,
     World
       (MemFS.Make (MemFS.platform_of (w_fs w))
          (<[path := MemFS.File true true
                       (MemFS.Text
                          (MemFS.to_linesep (MemFS.platform_of (w_fs w))
                             (transform (MemFS.universal_newlines raw))))]>
             (MemFS.nodes (w_fs w))))
       (w_stdout w ++ [lit "Updated: " ++ path])
       (w_trace w
        ++ [Read path;
            Write path (transform (MemFS.universal_newlines raw))])).
Proof.
  intros Hnode Henc.
  rewrite update_file_unfold. cbn [fs_read fs_write MemFS.file_system].
  unfold MemFS.read at 1. rewrite Hnode. cbv zeta.
  rewrite (write_text_file _ _ _ true _ Hnode)
    by by apply transform_encodable, universal_newlines_encodable.
  done.
Qed.

(** A second run on an updated file writes what the file holds. *)
Lemma second_run_changes_nothing (w : world MemFS.t) (path raw : str) :
  MemFS.nodes (w_fs w) !! path
    = Some (MemFS.File true true (MemFS.Text raw)) ->
  forallb MemFS.encodable raw = true ->
  w_fs (snd (update_file path (snd (update_file path w))))
  = w_fs (snd (update_file path w)).
Proof.
  intros Hnode Henc. rewrite (update_text_file w path raw Hnode Henc).
  cbn [snd]. erewrite update_text_file; cbn [w_fs MemFS.nodes MemFS.platform_of].
  - cbn [snd w_fs]. rewrite insert_insert_eq.
    by rewrite read_back, transform_twice by apply transform_no_CR.
  - apply lookup_insert_eq.
  - by apply to_linesep_encodable, transform_encodable,
      universal_newlines_encodable.
Qed.

(** ** A call of another receiver *)

Lemma runs_into_In (p w : str) (j : nat) :
  (1 <= j < length p)%nat -> compatible (drop j p) w = true ->
  In j (runs_into p w).
Proof.
  intros Hj Hc. apply filter_In. split; [apply in_seq; lia | done].
Qed.

Lemma endswith_app (x a : str) : endswith (x ++ a) a = true.
Proof. unfold endswith. rewrite reverse_app. apply startswith_app. Qed.

(** A match that begins in [u] and reaches into [w] has one of the lengths
    of [runs_into] inside [u]. *)
Lemma match_across (p u w x : str) (i : nat) :
  (i < length u)%nat ->
  startswith p (drop i u ++ w ++ x) = true ->
  startswith p (drop i u) = true \/
  exists j, In j (runs_into p w) /\ u = take i u ++ take j p.
Proof.
  intros Hi Hp.
  destruct (decide (length p <= length (drop i u))%nat) as [Hle | Hgt].
  - left. by apply (startswith_inside p (drop i u) (w ++ x)).
  - right. apply startswith_straddle in Hp as [Ha Hrest]; [|lia].
    exists (length (drop i u)). split.
    + apply runs_into_In; [rewrite length_drop in *; lia|].
      by apply (startswith_compatible _ w x).
    + rewrite <- Ha. by rewrite take_drop.
Qed.

Lemma SUCCESS_across_call :
  runs_into SUCCESS (lit ".Success(") = [19%nat] /\
  take 19 SUCCESS = lit "AevatarAIToolResult" /\
  starts_inside SUCCESS (lit ".Success(") = [] /\
  runs_into FAILURE (lit ".Success(") = [] /\
  starts_inside FAILURE (lit ".Success(") = [].
Proof. by vm_compute. Qed.

Lemma rule1_keeps_call (u v : str) :
  endswith u (lit "AevatarAIToolResult") = false ->
  rule1 (u ++ lit ".Success(" ++ v) = rule1 u ++ lit ".Success(" ++ rule1 v.
Proof.
  intros Hu. destruct SUCCESS_across_call as (Hrun & Htake & Hin & _ & _).
  unfold rule1. rewrite sub_split; [| done |].
  - by rewrite (sub_skip _ _ (lit ".Success(") v Hin).
  - intros i Hi Hp.
    apply match_across in Hp as [Hp | (j & Hj & Hcut)]; [done | | done].
    rewrite Hrun in Hj. destruct Hj as [<- | []].
    rewrite Htake in Hcut. rewrite Hcut, endswith_app in Hu. done.
Qed.

Lemma rule2_keeps_call (u v : str) :
  rule2 (u ++ lit ".Success(" ++ v) = rule2 u ++ lit ".Success(" ++ rule2 v.
Proof.
  destruct SUCCESS_across_call as (_ & _ & _ & Hrun & Hin).
  unfold rule2. rewrite sub_split; [| done |].
  - by rewrite (sub_skip _ _ (lit ".Success(") v Hin).
  - intros i Hi Hp.
    apply match_across in Hp as [Hp | (j & Hj & Hcut)]; [done | | done].
    by rewrite Hrun in Hj.
Qed.

(** * The statements of the specification *)

(** ** C1: what a successful [update_file] does *)

(** C1, as amended.  When the file at [path] is read and the write of the
    transformed text succeeds, [update_file] applies rule 1 to the text
    read, then rule 2 to the result of rule 1, writes that text to the same
    path, prints the line [Updated: path] and returns [True]; each rule
    replaces every occurrence of its pattern, from left to right and
    without overlap.  Nothing else is read, written or printed. *)
Theorem update_file_updates {fs : Type} `{FileSystem fs}
    (path : str) (w : world fs) (t : str) (m' : fs) :
  fs_read path (w_fs w) = inr t ->
  fs_write path (rule2 (rule1 t)) (w_fs w) = (None, m') ->
  update_file path w =
    (inr true,
     World m' (w_stdout w ++ [lit "Updated: " ++ path])
              (w_trace w ++ [Read path; Write path (rule2 (rule1 t))]))
  /\ replace_all SUCCESS CREATE_SUCCESS t (rule1 t)
  /\ replace_all FAILURE CREATE_FAILURE (rule1 t) (rule2 (rule1 t)).
Proof.
  intros Hread Hwrite. split; [|split].
  - rewrite update_file_unfold, Hread. unfold transform. cbv zeta.
    by rewrite Hwrite.
  - by apply sub_replace_all.
  - by apply sub_replace_all.
Qed.

Lemma update_file_updates_witness :
  fs_read Sample.path (w_fs Sample.tool_file) = inr Sample.before /\
  fs_write Sample.path (rule2 (rule1 Sample.before)) (w_fs Sample.tool_file)
    = (None, Sample.tool_file_updated) /\
  update_file Sample.path Sample.tool_file =
    (inr true,
     World Sample.tool_file_updated
           [lit "Updated: /repo/Tools.cs"]
           [Read Sample.path; Write Sample.path Sample.after]).
Proof.
  assert (Hread : fs_read Sample.path (w_fs Sample.tool_file)
                  = inr Sample.before) by (vm_compute; reflexivity).
  assert (Hwrite : fs_write Sample.path (rule2 (rule1 Sample.before))
                     (w_fs Sample.tool_file)
                   = (None, Sample.tool_file_updated))
    by (vm_compute; reflexivity).
  exact (conj Hread (conj Hwrite
    (proj1 (update_file_updates Sample.path Sample.tool_file
              Sample.before Sample.tool_file_updated Hread Hwrite)))).
Defined.

(** C1 as stated fails: a file without write permission is read
    successfully, and [update_file] prints an error line and returns
    [False]. *)
Lemma update_file_read_only :
  fs_read Sample.path (w_fs Sample.read_only) = inr Sample.before /\
  update_file Sample.path Sample.read_only =
    (inr false,
     World (w_fs Sample.read_only)
           [lit "Error updating /repo/Tools.cs: [Errno 13] Permission denied: '/repo/Tools.cs'"]
           [Read Sample.path; Write Sample.path Sample.after]).
Proof. split; vm_compute; reflexivity. Qed.

(** ** C2: the content of an updated file *)

(** C2, as amended.  For a text file that may be read and written, after
    [update_file] the file reads as the text read before with every
    occurrence of [AevatarAIToolResult.Success(] turned into
    [AevatarAIToolResult.CreateSuccess(] and every occurrence of
    [AevatarAIToolResult.Failure(] into [AevatarAIToolResult.CreateFailure(],
    for this one receiver only: none of the two patterns occurs any more,
    the characters outside the occurrences are those of the text read, and
    no other file has changed. *)
Theorem text_file_rewritten (w : world MemFS.t) (path raw : str) :
  MemFS.nodes (w_fs w) !! path
    = Some (MemFS.File true true (MemFS.Text raw)) ->
  forallb MemFS.encodable raw = true ->
  exists w' : world MemFS.t,
    update_file path w = (inr true, w') /\
    fs_read path (w_fs w) = inr (MemFS.universal_newlines raw) /\
    fs_read path (w_fs w')
      = inr (transform (MemFS.universal_newlines raw)) /\
    replace_all SUCCESS CREATE_SUCCESS
      (MemFS.universal_newlines raw) (rule1 (MemFS.universal_newlines raw)) /\
    replace_all FAILURE CREATE_FAILURE
      (rule1 (MemFS.universal_newlines raw))
      (transform (MemFS.universal_newlines raw)) /\
    ~ occurs SUCCESS (transform (MemFS.universal_newlines raw)) /\
    ~ occurs FAILURE (transform (MemFS.universal_newlines raw)) /\
    (forall q, q <> path ->
       MemFS.nodes (w_fs w') !! q = MemFS.nodes (w_fs w) !! q).
Proof.
  intros Hnode Henc. eexists. split; [by apply update_text_file|].
  cbn [w_fs fs_read MemFS.file_system]. unfold MemFS.read.
  cbn [MemFS.nodes]. rewrite Hnode, lookup_insert_eq.
  rewrite read_back by apply transform_no_CR.
  repeat split.
  - by apply sub_replace_all.
  - by apply sub_replace_all.
  - apply transform_no_SUCCESS.
  - apply transform_no_FAILURE.
  - intros q Hq. by rewrite lookup_insert_ne.
Qed.

Lemma text_file_rewritten_witness :
  MemFS.nodes (w_fs Sample.tool_file) !! Sample.path
    = Some (MemFS.File true true (MemFS.Text Sample.before)) /\
  forallb MemFS.encodable Sample.before = true /\
  exists w' : world MemFS.t,
    update_file Sample.path Sample.tool_file = (inr true, w') /\
    fs_read Sample.path (w_fs w') = inr Sample.after.
Proof.
  assert (Hnode : MemFS.nodes (w_fs Sample.tool_file) !! Sample.path
                  = Some (MemFS.File true true (MemFS.Text Sample.before)))
    by (vm_compute; reflexivity).
  assert (Henc : forallb MemFS.encodable Sample.before = true)
    by (vm_compute; reflexivity).
  split; [exact Hnode|]. split; [exact Henc|].
  destruct (text_file_rewritten Sample.tool_file Sample.path Sample.before
              Hnode Henc) as (w' & Hrun & _ & Hafter & _).
  exists w'. split; [exact Hrun | exact Hafter].
Defined.

(** C2 as stated fails: the file that holds [FooBar.Success(x)] is updated
    and holds [FooBar.Success(x)] afterwards; the occurrence of
    [FooBar.Success(] has not become [FooBar.CreateSuccess(]. *)
Lemma update_file_other_receiver :
  fst (update_file Sample.path Sample.other_receiver) = inr true /\
  MemFS.text_at Sample.path Sample.other_receiver
    = Some (lit "FooBar.Success(x)") /\
  MemFS.text_at Sample.path (snd (update_file Sample.path Sample.other_receiver))
    = Some (lit "FooBar.Success(x)") /\
  occursb (lit "FooBar.Success(") (lit "FooBar.Success(x)") = true /\
  occursb (lit "FooBar.CreateSuccess(") (lit "FooBar.Success(x)") = false.
Proof. repeat split; vm_compute; reflexivity. Qed.

(** ** C3: a second application changes nothing *)

(** C3.  Applying the two rules to a text they have already been applied to
    gives that text again; in particular neither replacement contains
    either pattern. *)
Theorem transform_idempotent (s : str) :
  transform (transform s) = transform s
  /\ ~ occurs SUCCESS CREATE_SUCCESS /\ ~ occurs FAILURE CREATE_SUCCESS
  /\ ~ occurs SUCCESS CREATE_FAILURE /\ ~ occurs FAILURE CREATE_FAILURE.
Proof.
  split.
  - apply transform_twice.
  - repeat split; by apply not_occurs.
Qed.

(** ** C4: which calls are rewritten *)

(** C4, as amended.  The match is on characters, not on identifiers.  An
    occurrence of [.Success(] that does not come right after the
    characters [AevatarAIToolResult] is left where it is and as it is: the
    text before it and the text after it are rewritten as they would be on
    their own. *)
Theorem success_call_kept (u v : str) :
  endswith u (lit "AevatarAIToolResult") = false ->
  transform (u ++ lit ".Success(" ++ v)
  = transform u ++ lit ".Success(" ++ transform v.
Proof.
  intros Hu. unfold transform.
  by rewrite rule1_keeps_call, rule2_keeps_call.
Qed.

Lemma success_call_kept_witness :
  endswith (lit "FooBar") (lit "AevatarAIToolResult") = false /\
  endswith (lit "MySuccessHandler") (lit "AevatarAIToolResult") = false /\
  transform (lit "FooBar.Success(x)") = lit "FooBar.Success(x)" /\
  transform (lit "MySuccessHandler.Success(") = lit "MySuccessHandler.Success(".
Proof.
  assert (H1 : endswith (lit "FooBar") (lit "AevatarAIToolResult") = false)
    by reflexivity.
  assert (H2 : endswith (lit "MySuccessHandler") (lit "AevatarAIToolResult")
               = false) by reflexivity.
  split; [exact H1|]. split; [exact H2|]. split.
  - exact (success_call_kept (lit "FooBar") (lit "x)") H1).
  - exact (success_call_kept (lit "MySuccessHandler") [] H2).
Defined.

(** C4 as stated fails: [MyAevatarAIToolResult] is another receiver than
    [AevatarAIToolResult], and its call is rewritten, because the pattern
    asks for no identifier boundary before [AevatarAIToolResult]. *)
Lemma longer_receiver_rewritten :
  lit "MyAevatarAIToolResult" <> lit "AevatarAIToolResult" /\
  endswith (lit "MyAevatarAIToolResult") (lit "AevatarAIToolResult") = true /\
  transform (lit "MyAevatarAIToolResult.Success(x)")
    = lit "MyAevatarAIToolResult.CreateSuccess(x)" /\
  transform (lit "MyAevatarAIToolResult.Success(x)")
    <> lit "MyAevatarAIToolResult.Success(x)".
Proof.
  split; [discriminate|]. split; [vm_compute; reflexivity|].
  split; [vm_compute; reflexivity | vm_compute; discriminate].
Qed.

(** ** C5: the order of the two rules *)

(** C5.  The Success rule followed by the Failure rule gives the same text
    as the Failure rule followed by the Success rule. *)
Theorem rules_commute (s : str) : rule2 (rule1 s) = rule1 (rule2 s).
Proof.
  unfold rule1, rule2.
  apply sub_commute; try done; apply patterns_keep_apart.
Qed.

(** ** C6: a failing step *)

(** C6.  When the read or the write of [update_file] fails with an
    exception [e], [update_file] still ends normally: it returns [False],
    and it has printed one line more, [Error updating path: e]. *)
Theorem update_file_catches {fs : Type} `{FileSystem fs}
    (path : str) (w : world fs) (e : exn) :
  step_fails path (w_fs w) e ->
  exists w' : world fs,
    update_file path w = (inr false, w') /\
    w_stdout w' =
      w_stdout w ++ [lit "Error updating " ++ path ++ lit ": " ++ exn_str e].
Proof.
  intros [Hread | t Hread Hwrite]; rewrite update_file_unfold, Hread.
  - by eexists.
  - cbv zeta. rewrite Hwrite. by eexists.
Qed.

Lemma update_file_catches_witness :
  step_fails Sample.path (w_fs Sample.directory)
    (MemFS.IsADirectoryError Sample.path) /\
  exists w' : world MemFS.t,
    update_file Sample.path Sample.directory = (inr false, w') /\
    w_stdout w' =
      [lit "Error updating /repo/Tools.cs: [Errno 21] Is a directory: '/repo/Tools.cs'"].
Proof.
  assert (Hfail : step_fails Sample.path (w_fs Sample.directory)
                    (MemFS.IsADirectoryError Sample.path))
    by (apply read_fails; vm_compute; reflexivity).
  exact (conj Hfail
    (update_file_catches Sample.path Sample.directory _ Hfail)).
Defined.

(** ** C7: a path that does not exist *)

(** C7.  For a path that does not exist the loop checks the path, prints
    the one line [File not found: path] and goes on with the next path:
    the file system is as before, and no file has been opened, so
    [update_file] has not run. *)
Theorem missing_path_skipped {fs : Type} `{FileSystem fs}
    (path : str) (rest : list str) (w : world fs) :
  fs_exists path (w_fs w) = false ->
  loop_body path w =
    (inr tt,
     World (w_fs w) (w_stdout w ++ [lit "File not found: " ++ path])
           (w_trace w ++ [Exists path]))
  /\ for_in (path :: rest) loop_body w =
     for_in rest loop_body
       (World (w_fs w) (w_stdout w ++ [lit "File not found: " ++ path])
              (w_trace w ++ [Exists path])).
Proof.
  intros Hex.
  assert (Hbody : loop_body path w =
    (inr tt,
     World (w_fs w) (w_stdout w ++ [lit "File not found: " ++ path])
           (w_trace w ++ [Exists path]))).
  { unfold loop_body, bind, os_path_exists. by rewrite Hex. }
  split; [done|]. cbn [for_in]. unfold bind at 1. by rewrite Hbody.
Qed.

Lemma missing_path_skipped_witness :
  fs_exists Sample.path (w_fs Sample.nothing) = false /\
  loop_body Sample.path Sample.nothing =
    (inr tt,
     World (w_fs Sample.nothing)
           [lit "File not found: /repo/Tools.cs"] [Exists Sample.path]).
Proof.
  assert (Hex : fs_exists Sample.path (w_fs Sample.nothing) = false)
    by reflexivity.
  exact (conj Hex
    (proj1 (missing_path_skipped Sample.path [] Sample.nothing Hex))).
Defined.

(** ** C8: one outcome per path, in order *)

(** C8.  From any state, the script checks each of the four paths of
    [files_to_update] once and in the order of the list, and ends
    normally.  Each path has one outcome, [Updated], [Error] or [NotFound],
    decided on the file system the paths before it have left, whatever
    their outcomes; the script prints the line of each outcome in order and
    then, once, the completion line. *)
Theorem every_path_once {fs : Type} `{FileSystem fs} (w : world fs) :
  length files_to_update = 4%nat /\
  length (fst (spec_outcomes files_to_update (w_fs w)))
    = length files_to_update /\
  exists tr : list event,
    script w =
      (inr tt,
       World (snd (spec_outcomes files_to_update (w_fs w)))
             (w_stdout w
              ++ zip_with notice files_to_update
                   (fst (spec_outcomes files_to_update (w_fs w)))
              ++ [lit "Method name updates completed!"])
             (w_trace w ++ tr)) /\
    exists_calls tr = files_to_update.
Proof.
  split; [done|]. split; [apply spec_outcomes_length|].
  destruct (for_in_loop_body files_to_update w) as (tr & Hrun & Hex).
  exists tr. split; [|done].
  unfold script, bind. rewrite Hrun. unfold print.
  cbn [w_fs w_stdout w_trace]. by rewrite <- app_assoc.
Qed.

(** ** C9: the exit status *)

(** C9.  From any state the script runs to its end: the exit status is 0
    and the last line printed is [Method name updates completed!]. *)
Theorem always_exits_zero {fs : Type} `{FileSystem fs} (w : world fs) :
  exit_status w = 0 /\
  last (w_stdout (snd (script w)))
    = Some (lit "Method name updates completed!").
Proof.
  destruct (for_in_loop_body files_to_update w) as (tr & Hrun & _).
  unfold exit_status, script, bind. rewrite Hrun. unfold print.
  cbn [fst snd w_stdout]. by rewrite last_snoc.
Qed.

(** ** C10: a failing read *)

(** C10.  When the read fails, [update_file] opens nothing for writing: the
    one call it makes is the read, the file system is as before, one error
    line is printed and [False] is returned. *)
Theorem read_failure_writes_nothing {fs : Type} `{FileSystem fs}
    (path : str) (w : world fs) (e : exn) :
  fs_read path (w_fs w) = inl e ->
  update_file path w =
    (inr false,
     World (w_fs w)
           (w_stdout w ++ [lit "Error updating " ++ path ++ lit ": " ++ exn_str e])
           (w_trace w ++ [Read path])).
Proof. intros Hread. by rewrite update_file_unfold, Hread. Qed.

Lemma read_failure_writes_nothing_witness :
  fs_read Sample.path (w_fs Sample.nothing)
    = inl (MemFS.FileNotFoundError Sample.path) /\
  update_file Sample.path Sample.nothing =
    (inr false,
     World (w_fs Sample.nothing)
           [lit "Error updating /repo/Tools.cs: [Errno 2] No such file or directory: '/repo/Tools.cs'"]
           [Read Sample.path]).
Proof.
  assert (Hread : fs_read Sample.path (w_fs Sample.nothing)
                  = inl (MemFS.FileNotFoundError Sample.path))
    by reflexivity.
  exact (conj Hread
    (read_failure_writes_nothing Sample.path Sample.nothing _ Hread)).
Defined.

(** * Further properties of the script *)

(** ** The calls and the result of [update_file] *)

Section Calls.
Context {fs : Type} `{FileSystem fs}.

(** [update_file] never raises, and it returns [True] exactly when the read
    and the write have both succeeded. *)
Theorem update_file_returns (path : str) (w : world fs) :
  exists (b : bool) (w' : world fs),
    update_file path w = (inr b, w') /\
    (b = true <->
     exists t, fs_read path (w_fs w) = inr t /\
               fst (fs_write path (transform t) (w_fs w)) = None).
Proof.
  rewrite update_file_unfold.
  destruct (fs_read path (w_fs w)) as [e | t] eqn:Hread.
  - eexists _, _. split; [done|]. split; [done|]. by intros (t & ? & _).
  - cbv zeta.
    destruct (fst (fs_write path (transform t) (w_fs w))) as [e|] eqn:Hwrite;
      eexists _, _; (split; [done|]); split; try done.
    + intros (t' & [= <-] & Hnone). congruence.
    + intros _. by exists t.
Qed.

(** [update_file] prints one line and calls the file system either once,
    to read the path, or twice, to read the path and then to write it:
    it opens no other path, and it never writes before it has read. *)
Theorem update_file_calls (path : str) (w : world fs) :
  exists (line : str) (tr : list event),
    w_stdout (snd (update_file path w)) = w_stdout w ++ [line] /\
    w_trace (snd (update_file path w)) = w_trace w ++ tr /\
    (tr = [Read path] \/ exists content, tr = [Read path; Write path content]).
Proof.
  rewrite update_file_unfold.
  destruct (fs_read path (w_fs w)) as [e | t];
    [|cbv zeta; destruct (fst (fs_write path (transform t) (w_fs w)))];
    eexists _, _; cbn [snd w_stdout w_trace];
    (split; [done|]); (split; [done|]); eauto.
Qed.

Lemma loop_body_turn (path : str) (w : world fs) :
  exists (w' : world fs) (tr : list event),
    loop_body path w = (inr tt, w') /\
    w_trace w' = w_trace w ++ tr /\
    turn_calls path tr.
Proof.
  unfold loop_body, bind, os_path_exists, turn_calls.
  cbn [w_fs w_stdout w_trace].
  destruct (fs_exists path (w_fs w)).
  - rewrite update_file_unfold. cbn [w_fs w_stdout w_trace].
    destruct (fs_read path (w_fs w)) as [e | t];
      [|cbv zeta; destruct (fst (fs_write path (transform t) (w_fs w)))];
      unfold ret; rewrite <- app_assoc;
      eexists _, _; (split; [reflexivity|]); cbn [w_trace];
      (split; [reflexivity|]); cbn [app]; eauto.
  - unfold print. cbn [w_fs w_stdout w_trace].
    eexists _, _. split; [reflexivity|]. cbn [w_trace].
    split; [reflexivity|]. by left.
Qed.

Lemma for_in_turns (paths : list str) (w : world fs) :
  exists (w' : world fs) (turns : list (list event)),
    for_in paths loop_body w = (inr tt, w') /\
    w_trace w' = w_trace w ++ concat turns /\
    Forall2 turn_calls paths turns.
Proof.
  revert w. induction paths as [|p paths IH]; intros w.
  - exists w, []. simpl. rewrite app_nil_r. by repeat split.
  - destruct (loop_body_turn p w) as (w1 & tr1 & Hrun1 & Htr1 & Hp1).
    destruct (IH w1) as (w2 & turns & Hrun2 & Htr2 & Hp2).
    exists w2, (tr1 :: turns). cbn [for_in]. unfold bind at 1.
    rewrite Hrun1, Hrun2. split; [done|].
    split; [cbn [concat]; by rewrite Htr2, Htr1, <- app_assoc|].
    by apply Forall2_cons.
Qed.

(** The calls of the script to the file system come in turns, one per path
    of [files_to_update] and in the order of the list: each turn checks
    its path, reads it at most once after the check and writes it at most
    once after the read.  The script calls the file system for no other
    path, and writes no file it has not read. *)
Theorem script_call_turns (w : world fs) :
  exists turns : list (list event),
    w_trace (snd (script w)) = w_trace w ++ concat turns /\
    Forall2 turn_calls files_to_update turns.
Proof.
  destruct (for_in_turns files_to_update w) as (w1 & turns & Hrun & Htr & Hp).
  exists turns. unfold script, bind. rewrite Hrun. unfold print.
  cbn [snd w_trace]. split; [exact Htr | exact Hp].
Qed.

(** A file in which neither pattern occurs is written all the same, with
    the text read, and reported as updated. *)
Theorem update_file_writes_unchanged_text
    (path : str) (w : world fs) (t : str) (m' : fs) :
  fs_read path (w_fs w) = inr t ->
  occursb SUCCESS t = false ->
  occursb FAILURE t = false ->
  fs_write path t (w_fs w) = (None, m') ->
  update_file path w =
    (inr true,
     World m' (w_stdout w ++ [lit "Updated: " ++ path])
              (w_trace w ++ [Read path; Write path t])).
Proof.
  intros Hread Hs Hf Hwrite.
  assert (H1 : rule1 t = t).
  { apply sub_id; [exact SUCCESS_nonempty | apply not_occurs, Hs]. }
  assert (H2 : rule2 t = t).
  { apply sub_id; [exact FAILURE_nonempty | apply not_occurs, Hf]. }
  assert (Ht : transform t = t).
  { unfold transform. rewrite H1. exact H2. }
  rewrite update_file_unfold, Hread. cbv zeta. rewrite Ht, Hwrite. done.
Qed.

End Calls.

Lemma update_file_writes_unchanged_text_witness :
  fs_read Sample.path (w_fs Sample.other_receiver)
    = inr (lit "FooBar.Success(x)") /\
  occursb SUCCESS (lit "FooBar.Success(x)") = false /\
  occursb FAILURE (lit "FooBar.Success(x)") = false /\
  fs_write Sample.path (lit "FooBar.Success(x)") (w_fs Sample.other_receiver)
    = (None, w_fs Sample.other_receiver) /\
  update_file Sample.path Sample.other_receiver =
    (inr true,
     World (w_fs Sample.other_receiver)
           [lit "Updated: /repo/Tools.cs"]
           [Read Sample.path; Write Sample.path (lit "FooBar.Success(x)")]).
Proof.
  assert (Hread : fs_read Sample.path (w_fs Sample.other_receiver)
                  = inr (lit "FooBar.Success(x)")) by (vm_compute; reflexivity).
  assert (Hs : occursb SUCCESS (lit "FooBar.Success(x)") = false)
    by (vm_compute; reflexivity).
  assert (Hf : occursb FAILURE (lit "FooBar.Success(x)") = false)
    by (vm_compute; reflexivity).
  assert (Hwrite : fs_write Sample.path (lit "FooBar.Success(x)")
                     (w_fs Sample.other_receiver)
                   = (None, w_fs Sample.other_receiver))
    by (vm_compute; reflexivity).
  exact (conj Hread (conj Hs (conj Hf (conj Hwrite
    (update_file_writes_unchanged_text Sample.path Sample.other_receiver
       _ _ Hread Hs Hf Hwrite))))).
Defined.

(** ** The text transformation *)

(** The result of the scan is the one text the specification's rewriting
    relates to the input. *)
Theorem sub_literal_unique (pat rep s out : str) :
  (0 < length pat)%nat ->
  replace_all pat rep s out <-> out = Re.sub_literal pat rep s.
Proof.
  intros Hlen.
  assert (Hne : pat <> []) by (intros ->; simpl in Hlen; lia).
  split.
  - by apply replace_all_sub.
  - intros ->. by apply sub_replace_all.
Qed.

Lemma sub_literal_unique_witness :
  (0 < length (lit "ab"))%nat /\
  (replace_all (lit "ab") (lit "X") (lit "abcababa") (lit "XcXXa")
   <-> lit "XcXXa" = Re.sub_literal (lit "ab") (lit "X") (lit "abcababa")).
Proof.
  assert (Hlen : (0 < length (lit "ab"))%nat) by (simpl; lia).
  exact (conj Hlen
    (sub_literal_unique (lit "ab") (lit "X") (lit "abcababa") (lit "XcXXa")
       Hlen)).
Defined.

(** The transformation leaves a text as it is exactly when neither pattern
    occurs in it. *)
Theorem transform_fixed_iff (s : str) :
  transform s = s <-> ~ occurs SUCCESS s /\ ~ occurs FAILURE s.
Proof.
  split.
  - intros Hs. split.
    + rewrite <- Hs. apply transform_no_SUCCESS.
    + rewrite <- Hs. apply transform_no_FAILURE.
  - intros [Hno1 Hno2].
    assert (H1 : rule1 s = s)
      by (apply sub_id; [exact SUCCESS_nonempty | exact Hno1]).
    assert (H2 : rule2 s = s)
      by (apply sub_id; [exact FAILURE_nonempty | exact Hno2]).
    unfold transform. rewrite H1. exact H2.
Qed.

(** Undoing a substitution by the opposite one. *)
Section Undo.

Variables pat rep : str.
Hypothesis pat_nonempty : pat <> [].
Hypothesis rep_nonempty : rep <> [].
Hypothesis rep_not_into_rep : runs_into rep rep = [].

Lemma sub_undo (s : str) :
  ~ occurs rep s ->
  Re.sub_literal rep pat (Re.sub_literal pat rep s) = s.
Proof.
  induction s as [|rest IH|c s Hc IH] using (sub_ind pat pat_nonempty);
    intros Hno.
  - rewrite (sub_nil pat rep pat_nonempty). apply (sub_nil rep pat rep_nonempty).
  - rewrite (sub_hit pat rep pat_nonempty), (sub_hit rep pat rep_nonempty).
    f_equal. apply IH. intros (u & v & ->). apply Hno.
    exists (pat ++ u), v. by rewrite <- app_assoc.
  - rewrite occurs_cons in Hno.
    rewrite (sub_miss pat rep c s Hc). rewrite sub_miss.
    + f_equal. apply IH. tauto.
    + destruct (startswith rep (c :: Re.sub_literal pat rep s)) eqn:Hp; [|done].
      apply (sub_keeps_head pat rep pat_nonempty rep c s rep_not_into_rep) in Hp.
      tauto.
Qed.

End Undo.

Lemma replacements_keep_apart :
  runs_into CREATE_SUCCESS CREATE_SUCCESS = [] /\
  runs_into CREATE_FAILURE CREATE_FAILURE = [] /\
  starts_inside CREATE_FAILURE CREATE_SUCCESS = [] /\
  runs_into CREATE_FAILURE CREATE_SUCCESS = [].
Proof. vm_compute. repeat split. Qed.

Lemma CREATE_SUCCESS_nonempty : CREATE_SUCCESS <> [].
Proof. discriminate. Qed.

Lemma CREATE_FAILURE_nonempty : CREATE_FAILURE <> [].
Proof. discriminate. Qed.

(** On a text that holds neither new name the renaming loses nothing: the
    two opposite substitutions give the text back. *)
Theorem transform_undone (s : str) :
  occursb CREATE_SUCCESS s = false ->
  occursb CREATE_FAILURE s = false ->
  Re.sub_literal CREATE_SUCCESS SUCCESS
    (Re.sub_literal CREATE_FAILURE FAILURE (transform s)) = s.
Proof.
  intros Hcs%not_occurs Hcf%not_occurs.
  destruct replacements_keep_apart as (Hss & Hff & Hin & Hrun).
  assert (Hcf1 : ~ occurs CREATE_FAILURE (rule1 s)).
  { intros Ho. apply Hcf. revert Ho.
    apply (sub_no_new SUCCESS CREATE_SUCCESS SUCCESS_nonempty CREATE_FAILURE s
             Hin Hrun). }
  unfold transform, rule2.
  rewrite (sub_undo FAILURE CREATE_FAILURE FAILURE_nonempty
             CREATE_FAILURE_nonempty Hff (rule1 s) Hcf1).
  exact (sub_undo SUCCESS CREATE_SUCCESS SUCCESS_nonempty
           CREATE_SUCCESS_nonempty Hss s Hcs).
Qed.

Lemma transform_undone_witness :
  occursb CREATE_SUCCESS Sample.before = false /\
  occursb CREATE_FAILURE Sample.before = false /\
  Re.sub_literal CREATE_SUCCESS SUCCESS
    (Re.sub_literal CREATE_FAILURE FAILURE (transform Sample.before))
  = Sample.before.
Proof.
  assert (H1 : occursb CREATE_SUCCESS Sample.before = false)
    by (vm_compute; reflexivity).
  assert (H2 : occursb CREATE_FAILURE Sample.before = false)
    by (vm_compute; reflexivity).
  exact (conj H1 (conj H2 (transform_undone Sample.before H1 H2))).
Defined.

(** A character that is in neither pattern cuts the text. *)

Lemma compatible_single (p : str) (j : nat) (c : N) :
  (j < length p)%nat -> compatible (drop j p) [c] = true -> In c p.
Proof.
  intros Hj Hc. destruct (drop j p) as [|d q] eqn:Hd.
  - apply (f_equal length) in Hd. rewrite length_drop in Hd. simpl in Hd. lia.
  - simpl in Hc. apply andb_prop in Hc as [Hdc _]. apply N.eqb_eq in Hdc as <-.
    rewrite <- (take_drop j p), Hd. apply in_or_app. right. by left.
Qed.

Lemma sub_cut_at (pat rep u v : str) (c : N) :
  pat <> [] -> ~ In c pat ->
  Re.sub_literal pat rep (u ++ c :: v)
  = Re.sub_literal pat rep u ++ c :: Re.sub_literal pat rep v.
Proof.
  intros Hne Hc. rewrite sub_split; [| exact Hne |].
  - f_equal. apply sub_miss.
    destruct pat as [|a p]; [done|]. simpl.
    destruct (N.eqb_spec a c) as [->|]; [|done]. exfalso. apply Hc. by left.
  - intros i Hi Hp.
    apply (match_across pat u [c] v i Hi) in Hp as [Hp | (j & Hj & _)];
      [done|].
    apply filter_In in Hj as [Hj Hcomp]. apply in_seq in Hj.
    exfalso. apply Hc. apply (compatible_single pat j c); [lia | done].
Qed.

Lemma not_In_forallb (c : N) (p : str) :
  forallb (fun x => negb (x =? c)) p = true -> ~ In c p.
Proof.
  rewrite forallb_forall. intros Hall Hin. apply Hall in Hin.
  by rewrite N.eqb_refl in Hin.
Qed.

(** The transformation works piece by piece between characters that are in
    neither pattern, such as a line feed, a space or a semicolon: no match
    lies across such a character. *)
Theorem transform_cut_at (c : N) (u v : str) :
  forallb (fun x => negb (x =? c)) (SUCCESS ++ FAILURE) = true ->
  transform (u ++ c :: v) = transform u ++ c :: transform v.
Proof.
  intros Hc. rewrite forallb_app in Hc. apply andb_prop in Hc as [Hs Hf].
  apply not_In_forallb in Hs, Hf.
  unfold transform, rule1, rule2.
  rewrite (sub_cut_at SUCCESS CREATE_SUCCESS u v c SUCCESS_nonempty Hs).
  exact (sub_cut_at FAILURE CREATE_FAILURE _ _ c FAILURE_nonempty Hf).
Qed.

Lemma transform_cut_at_witness :
  forallb (fun x => negb (x =? LF)) (SUCCESS ++ FAILURE) = true /\
  transform (lit "AevatarAIToolResult.Success(1);" ++ LF
             :: lit "AevatarAIToolResult.Failure(2);")
  = lit "AevatarAIToolResult.CreateSuccess(1);" ++ LF
    :: lit "AevatarAIToolResult.CreateFailure(2);".
Proof.
  assert (Hc : forallb (fun x => negb (x =? LF)) (SUCCESS ++ FAILURE) = true)
    by (vm_compute; reflexivity).
  exact (conj Hc
    (transform_cut_at LF (lit "AevatarAIToolResult.Success(1);")
       (lit "AevatarAIToolResult.Failure(2);") Hc)).
Defined.

(** ** What [update_file] leaves of the files in memory *)

Lemma insert_as_alter {A} (f : A -> A) (m : gmap str A) (i : str) (x : A) :
  m !! i = Some x -> <[i := f x]> m = alter f i m.
Proof.
  intros Hi. apply map_eq. intros j. rewrite lookup_alter, lookup_insert.
  case_decide; [subst; by rewrite Hi | done].
Qed.

Lemma alter_same {A} (f : A -> A) (m : gmap str A) (i : str) :
  (forall x, m !! i = Some x -> f x = x) -> alter f i m = m.
Proof.
  intros Hf. apply map_eq. intros j. rewrite lookup_alter.
  case_decide; [subst|done].
  destruct (m !! j) as [x|] eqn:Hj; [simpl; f_equal; by apply Hf | done].
Qed.

Lemma alter_twice {A} (f : A -> A) (m : gmap str A) (i : str) :
  (forall x, f (f x) = f x) -> alter f i (alter f i m) = alter f i m.
Proof.
  intros Hf. apply map_eq. intros j.
  destruct (decide (i = j)) as [->|Hij].
  - rewrite !lookup_alter_eq. destruct (m !! j); simpl; [by rewrite Hf | done].
  - by rewrite !lookup_alter_ne.
Qed.

Lemma universal_newlines_id (raw : str) :
  Forall (fun c => c <> CR) raw -> MemFS.universal_newlines raw = raw.
Proof.
  induction 1 as [|c raw Hc Hraw IH]; [done|].
  rewrite universal_newlines_cons_other by done. by rewrite IH.
Qed.

Lemma to_linesep_posix (s : str) : MemFS.to_linesep MemFS.Posix s = s.
Proof.
  induction s as [|c s IH]; [done|].
  change (MemFS.to_linesep MemFS.Posix (c :: s))
    with ((if c =? LF then [LF] else [c]) ++ MemFS.to_linesep MemFS.Posix s).
  rewrite IH. by destruct (N.eqb_spec c LF) as [->|].
Qed.

(** The file system after the read and, when the read succeeds, the write
    of the transformed text. *)
Lemma read_then_write (path : str) (m : MemFS.t) :
  match MemFS.read path m with
  | inl _ => m
  | inr t => snd (MemFS.write path (transform t) m)
  end
  = MemFS.Make (MemFS.platform_of m)
      (alter (updated_node (MemFS.platform_of m)) path (MemFS.nodes m)).
Proof.
  destruct m as [pf nodes]. unfold MemFS.read, MemFS.write.
  cbn [MemFS.nodes MemFS.platform_of].
  assert (Hsame : forall n, nodes !! path = Some n -> updated_node pf n = n ->
            MemFS.Make pf nodes
            = MemFS.Make pf (alter (updated_node pf) path nodes)).
  { intros n Hn Hfix. f_equal. symmetry. apply alter_same.
    intros x Hx. rewrite Hn in Hx. by injection Hx as <-. }
  destruct (nodes !! path) as [[|r wr d]|] eqn:Hnode.
  - by apply (Hsame MemFS.Dir).
  - destruct r, wr, d as [raw|why]; cbn [snd];
      try (by apply (Hsame _ eq_refl)).
    destruct (MemFS.written pf (transform (MemFS.universal_newlines raw)))
      as [e d] eqn:Hw.
    cbn [snd]. f_equal.
    rewrite <- (insert_as_alter (updated_node pf) nodes path _ Hnode).
    cbn [updated_node]. by rewrite Hw.
  - f_equal. symmetry. apply alter_same. intros x Hx. congruence.
Qed.

Lemma update_file_mem (path : str) (w : world MemFS.t) :
  w_fs (snd (update_file path w))
  = MemFS.Make (MemFS.platform_of (w_fs w))
      (alter (updated_node (MemFS.platform_of (w_fs w))) path
             (MemFS.nodes (w_fs w))).
Proof.
  rewrite <- read_then_write. rewrite update_file_unfold.
  cbn [fs_read fs_write MemFS.file_system].
  destruct (MemFS.read path (w_fs w)) as [e | t]; [done|].
  cbv zeta. by destruct (fst (MemFS.write path (transform t) (w_fs w))).
Qed.

Lemma spec_outcome_mem (path : str) (m : MemFS.t) :
  snd (spec_outcome path m)
  = MemFS.Make (MemFS.platform_of m)
      (alter (updated_node (MemFS.platform_of m)) path (MemFS.nodes m)).
Proof.
  unfold spec_outcome. cbn [fs_exists fs_read fs_write MemFS.file_system].
  unfold MemFS.exists_.
  destruct (MemFS.nodes m !! path) as [n|] eqn:Hnode.
  - rewrite <- read_then_write.
    by destruct (MemFS.read path m) as [e | t].
  - cbn [snd]. destruct m as [pf nodes]. cbn [MemFS.nodes MemFS.platform_of] in *.
    f_equal. symmetry. apply alter_same. intros x. by rewrite Hnode.
Qed.

Lemma spec_outcomes_mem (paths : list str) (m : MemFS.t) :
  snd (spec_outcomes paths m)
  = MemFS.Make (MemFS.platform_of m)
      (foldl (fun nodes p => alter (updated_node (MemFS.platform_of m)) p nodes)
             (MemFS.nodes m) paths).
Proof.
  revert m. induction paths as [|p paths IH]; intros m.
  - by destruct m.
  - cbn [spec_outcomes snd foldl]. rewrite IH, spec_outcome_mem. done.
Qed.

Lemma updated_node_twice (pf : MemFS.platform) (n : MemFS.node) :
  updated_node pf (updated_node pf n) = updated_node pf n.
Proof.
  destruct n as [|[] [] [raw|why]]; try done.
  cbn [updated_node]. unfold MemFS.written.
  destruct (forallb MemFS.encodable (transform (MemFS.universal_newlines raw)))
    eqn:Henc; cbn [snd updated_node].
  - rewrite read_back by apply transform_no_CR.
    rewrite transform_twice. unfold MemFS.written. by rewrite Henc.
  - done.
Qed.

Lemma foldl_alter_lookup {A} (f : A -> A) (paths : list str)
    (m : gmap str A) (q : str) :
  (forall x, f (f x) = f x) ->
  foldl (fun nodes p => alter f p nodes) m paths !! q
  = if decide (q ∈ paths) then f <$> m !! q else m !! q.
Proof.
  intros Hf. revert m. induction paths as [|p paths IH]; intros m.
  - cbn [foldl]. rewrite decide_False; [done | apply not_elem_of_nil].
  - cbn [foldl]. rewrite IH.
    destruct (decide (p = q)) as [->|Hpq].
    + rewrite lookup_alter_eq.
      rewrite (decide_True (P := q ∈ q :: paths)) by apply list_elem_of_here.
      case_decide; [|done]. destruct (m !! q); simpl; [by rewrite Hf | done].
    + rewrite lookup_alter_ne by done.
      destruct (decide (q ∈ paths)) as [Hin|Hnin].
      * rewrite (decide_True (P := q ∈ p :: paths))
          by by apply list_elem_of_further.
        done.
      * rewrite (decide_False (P := q ∈ p :: paths))
          by (apply not_elem_of_cons; split; [congruence | done]).
        done.
Qed.

Lemma script_mem (w : world MemFS.t) :
  w_fs (snd (script w))
  = MemFS.Make (MemFS.platform_of (w_fs w))
      (foldl (fun nodes p =>
                alter (updated_node (MemFS.platform_of (w_fs w))) p nodes)
             (MemFS.nodes (w_fs w)) files_to_update).
Proof.
  destruct (for_in_loop_body files_to_update w) as (tr & Hrun & _).
  unfold script, bind. rewrite Hrun. unfold print. cbn [snd w_fs].
  apply spec_outcomes_mem.
Qed.

(** [update_file] creates and removes no file, and leaves every other path
    and the platform as they are, whichever way it ends. *)
Theorem update_file_frame (path : str) (w : world MemFS.t) :
  MemFS.platform_of (w_fs (snd (update_file path w)))
    = MemFS.platform_of (w_fs w) /\
  dom (MemFS.nodes (w_fs (snd (update_file path w))))
    = dom (MemFS.nodes (w_fs w)) /\
  forall q, q <> path ->
    MemFS.nodes (w_fs (snd (update_file path w))) !! q
    = MemFS.nodes (w_fs w) !! q.
Proof.
  rewrite update_file_mem. cbn [MemFS.platform_of MemFS.nodes].
  split; [done|]. split; [apply dom_alter_L|].
  intros q Hq. by apply lookup_alter_ne.
Qed.

(** A second [update_file] on the same path leaves the files as the first
    one left them, whatever is at the path. *)
Theorem update_file_twice (path : str) (w : world MemFS.t) :
  w_fs (snd (update_file path (snd (update_file path w))))
  = w_fs (snd (update_file path w)).
Proof.
  rewrite (update_file_mem path (snd (update_file path w))).
  rewrite (update_file_mem path w). cbn [MemFS.platform_of MemFS.nodes].
  f_equal. apply alter_twice, updated_node_twice.
Qed.

(** A second run of the script leaves the files as the first run left
    them, whatever the files are. *)
Theorem script_twice (w : world MemFS.t) :
  w_fs (snd (script (snd (script w)))) = w_fs (snd (script w)).
Proof.
  rewrite (script_mem (snd (script w))). rewrite (script_mem w).
  cbn [MemFS.platform_of MemFS.nodes]. f_equal.
  apply map_eq. intros q.
  rewrite !foldl_alter_lookup by apply updated_node_twice.
  case_decide; [|done].
  destruct (MemFS.nodes (w_fs w) !! q); simpl; [|done].
  by rewrite updated_node_twice.
Qed.

(** On a POSIX platform a text file without carriage return holds, after
    the update, the transform of what it held, character for character. *)
Theorem posix_text_rewritten (w : world MemFS.t) (path raw : str) :
  MemFS.platform_of (w_fs w) = MemFS.Posix ->
  MemFS.nodes (w_fs w) !! path
    = Some (MemFS.File true true (MemFS.Text raw)) ->
  forallb MemFS.encodable raw = true ->
  forallb (fun c => negb (c =? CR)) raw = true ->
  MemFS.text_at path (snd (update_file path w)) = Some (transform raw).
Proof.
  intros Hpf Hnode Henc HCR%no_CR_forallb.
  rewrite (update_text_file w path raw Hnode Henc).
  unfold MemFS.text_at. cbn [snd w_fs MemFS.nodes].
  rewrite lookup_insert_eq, Hpf, to_linesep_posix.
  by rewrite universal_newlines_id.
Qed.

Lemma posix_text_rewritten_witness :
  MemFS.platform_of (w_fs Sample.tool_file) = MemFS.Posix /\
  MemFS.nodes (w_fs Sample.tool_file) !! Sample.path
    = Some (MemFS.File true true (MemFS.Text Sample.before)) /\
  forallb MemFS.encodable Sample.before = true /\
  forallb (fun c => negb (c =? CR)) Sample.before = true /\
  MemFS.text_at Sample.path (snd (update_file Sample.path Sample.tool_file))
    = Some (transform Sample.before).
Proof.
  assert (Hpf : MemFS.platform_of (w_fs Sample.tool_file) = MemFS.Posix)
    by reflexivity.
  assert (Hnode : MemFS.nodes (w_fs Sample.tool_file) !! Sample.path
                  = Some (MemFS.File true true (MemFS.Text Sample.before)))
    by (vm_compute; reflexivity).
  assert (Henc : forallb MemFS.encodable Sample.before = true)
    by (vm_compute; reflexivity).
  assert (HCR : forallb (fun c => negb (c =? CR)) Sample.before = true)
    by (vm_compute; reflexivity).
  exact (conj Hpf (conj Hnode (conj Henc (conj HCR
    (posix_text_rewritten Sample.tool_file Sample.path Sample.before
       Hpf Hnode Henc HCR))))).
Defined.

(** On a POSIX platform a text file that has been updated holds no
    carriage return: its line ends are line feeds, whatever they were. *)
Theorem posix_line_ends (w : world MemFS.t) (path raw : str) :
  MemFS.platform_of (w_fs w) = MemFS.Posix ->
  MemFS.nodes (w_fs w) !! path
    = Some (MemFS.File true true (MemFS.Text raw)) ->
  forallb MemFS.encodable raw = true ->
  exists raw' : str,
    MemFS.text_at path (snd (update_file path w)) = Some raw' /\
    raw' = transform (MemFS.universal_newlines raw) /\
    ~ In CR raw'.
Proof.
  intros Hpf Hnode Henc.
  exists (transform (MemFS.universal_newlines raw)). split; [|split; [done|]].
  - rewrite (update_text_file w path raw Hnode Henc).
    unfold MemFS.text_at. cbn [snd w_fs MemFS.nodes].
    by rewrite lookup_insert_eq, Hpf, to_linesep_posix.
  - intros Hin. pose proof (transform_no_CR raw) as Hall.
    rewrite Forall_forall in Hall. apply list_elem_of_In in Hin.
    by apply Hall in Hin.
Qed.

Lemma posix_line_ends_witness :
  MemFS.platform_of (w_fs LineEnds.crlf_file) = MemFS.Posix /\
  exists raw' : str,
    MemFS.text_at Sample.path
      (snd (update_file Sample.path LineEnds.crlf_file)) = Some raw' /\
    raw' = lit "AevatarAIToolResult.CreateSuccess(1);" ++ [LF]
           ++ lit "AevatarAIToolResult.CreateFailure(2);" ++ [LF] /\
    ~ In CR raw'.
Proof.
  assert (Hpf : MemFS.platform_of (w_fs LineEnds.crlf_file) = MemFS.Posix)
    by reflexivity.
  assert (Hnode : MemFS.nodes (w_fs LineEnds.crlf_file) !! Sample.path
                  = Some (MemFS.File true true
                            (MemFS.Text
                               (lit "AevatarAIToolResult.Success(1);"
                                ++ [CR; LF]
                                ++ lit "AevatarAIToolResult.Failure(2);"
                                ++ [CR; LF]))))
    by (vm_compute; reflexivity).
  assert (Henc : forallb MemFS.encodable
                   (lit "AevatarAIToolResult.Success(1);" ++ [CR; LF]
                    ++ lit "AevatarAIToolResult.Failure(2);" ++ [CR; LF])
                 = true) by (vm_compute; reflexivity).
  exact (conj Hpf
    (posix_line_ends LineEnds.crlf_file Sample.path _ Hpf Hnode Henc)).
Defined.
